(** * inf_to_json: the extraction, correlation and deduplication pipeline

    A shallow embedding of [reader.h], [report.h], [json.h] and
    [main.cpp].  Wide strings are sequences of code units, exceptions are
    an explicit result type, range-[for] loops with a throwing body are
    folds in that result type, and the [std::generator] of
    [correlate_models_sections] is the list of the values it yields, in
    the order it yields them.  Reading a section and converting a text
    may throw; the first exception ends the run. *)

From Stdlib Require Import NArith ZArith Ascii String.
From stdpp Require Import base tactics option list strings.

(** ** Text *)

(** [wchar_t] is a code unit, [std::wstring] a sequence of them. *)
Definition wchar_t := N.
Definition wstring := list wchar_t.

(** A wide string literal [L"..."]. *)
Definition W (s : string) : wstring :=
  List.map N_of_ascii (list_ascii_of_string s).

(** [std::ranges::equal]: same length and equal elements, position by
    position. *)
Fixpoint ranges_equal {A : Type} (eqb : A -> A -> bool) (l r : list A) : bool :=
  match l, r with
  | [], [] => true
  | x :: l', y :: r' => eqb x y && ranges_equal eqb l' r'
  | _, _ => false
  end.

(** [operator==] of [std::wstring]: the code units are compared as they
    are. *)
Definition wstring_eqb (l r : wstring) : bool := ranges_equal N.eqb l r.

(** ** Exceptions *)

(** What [main_with_code] tells apart: [std::bad_alloc], any other
    [std::exception] with its [what()], and anything else. *)
Inductive exception :=
  | bad_alloc
  | std_exception (what : string)
  | unknown_exception.

Definition runtime_error (what : string) : exception := std_exception what.

(** A computation that returns or throws. *)
Inductive result (A : Type) :=
  | Ok (a : A)
  | Throw (e : exception).
Arguments Ok {A} a.
Arguments Throw {A} e.

#[global] Instance result_ret : MRet result := fun _ a => Ok a.
#[global] Instance result_bind : MBind result := fun _ _ f r =>
  match r with
  | Ok a => f a
  | Throw e => Throw e
  end.

(** A range-[for] whose body updates the state [S] and may throw: the
    first exception ends the loop. *)
Fixpoint for_range {A S : Type} (range : list A) (body : A -> S -> result S)
    (s : S) : result S :=
  match range with
  | [] => Ok s
  | x :: range' => s' ← body x s; for_range range' body s'
  end.

(** ** The module [setup_api] *)

(** The module [setup_api] is imported by [main.cpp] and its source is
    not embedded here: what the pipeline uses from it is an interface. *)
Class setup_api := {
  (** Modelled from the spec: the letter-case normalisation behind the
      case-insensitive equality of [key_name] and [section_name]
      (CaseInsensitiveText: equality ignores letter case). *)
  fold_case : wchar_t -> wchar_t;
  (** Modelled from the spec: [to_utf8], the conversion of a text value
      to the report's external encoding; it returns the converted text
      or throws on an ill-formed sequence (EncodingError). *)
  to_utf8 : wstring -> result string
}.

(** An instance: [A]-[Z] fold to [a]-[z], and the conversion is that of
    UTF-16 to UTF-8, which throws on a surrogate without its partner. *)
Definition ascii_fold (c : wchar_t) : wchar_t :=
  if ((65 <=? c) && (c <=? 90))%N then (c + 32)%N else c.

(** The code points of a UTF-16 text, if it is well formed. *)
Fixpoint utf16_code_points (s : wstring) : option (list N) :=
  match s with
  | [] => Some []
  | c :: s' =>
      if (c <? 55296)%N then cons c <$> utf16_code_points s'
      else if (c <? 56320)%N then
        match s' with
        | low :: s'' =>
            if ((56320 <=? low) && (low <? 57344))%N
            then cons (65536 + (c - 55296) * 1024 + (low - 56320))%N
                   <$> utf16_code_points s''
            else None
        | [] => None
        end
      else if (c <? 57344)%N then None
      else if (c <? 65536)%N then cons c <$> utf16_code_points s'
      else None
  end.

(** The UTF-8 bytes of a code point. *)
Definition utf8_bytes (cp : N) : list N :=
  (if cp <? 128 then [cp]
   else if cp <? 2048 then [192 + cp / 64; 128 + cp mod 64]
   else if cp <? 65536
     then [224 + cp / 4096; 128 + (cp / 64) mod 64; 128 + cp mod 64]
   else [240 + cp / 262144; 128 + (cp / 4096) mod 64;
         128 + (cp / 64) mod 64; 128 + cp mod 64])%N.

Definition encoding_error : exception :=
  runtime_error "ill-formed UTF-16 text".

Definition utf16_to_utf8 (s : wstring) : result string :=
  match utf16_code_points s with
  | Some code_points =>
      Ok (string_of_list_ascii
            (List.map ascii_of_N (flat_map utf8_bytes code_points)))
  | None => Throw encoding_error
  end.

Definition ascii_api : setup_api :=
  {| fold_case := ascii_fold; to_utf8 := utf16_to_utf8 |}.

Section Keys.
Context {api : setup_api}.

(** [key_name] and [section_name] hold the text as it was given;
    only their comparison ignores case. *)
Definition key_name := wstring.
Definition section_name := wstring.

(** Modelled from the spec: [operator==] of [key_name] and of
    [section_name], case-insensitive over the full name. *)
Definition ci_eqb (l r : wstring) : bool :=
  ranges_equal (fun x y => N.eqb (fold_case x) (fold_case y)) l r.

(** What "equal case-insensitively" means: the same text once letter
    case is normalised. *)
Definition ci_equal (l r : wstring) : Prop :=
  List.map fold_case l = List.map fold_case r.

(** [class model_key] of report.h. *)
Record model_key := {
  description : key_name;
  hardware_ids : list wstring
}.

(** [bool operator==(const model_key&, const model_key&)]. *)
Definition model_key_eqb (left right : model_key) : bool :=
  ci_eqb (description left) (description right)
  && ranges_equal wstring_eqb (hardware_ids left) (hardware_ids right).

End Keys.

(** ** The document reader (module [setup_api]) *)

(** Modelled from the spec: a visited line exposes its key, already
    expanded, and its fields ([key()], [size()], [field_at(i)]). *)
Record line := {
  line_key : wstring;
  line_fields : list wstring
}.

Definition line_size (l : line) : nat := length (line_fields l).

(** The pipeline reads [field_at(i)] only for [i < size()]. *)
Definition line_field_at (l : line) (i : nat) : wstring :=
  nth i (line_fields l) [].

(** Modelled from the spec: the open document.  [section_names] are the
    raw names [for_each_section] enumerates; [section_lines name] are the
    lines [for_each_line] visits, in file order, or the exception it
    throws (a missing section, a failure of the underlying reader). *)
Record inf_file := {
  section_names : list wstring;
  section_lines : wstring -> result (list line)
}.

(** [inf.for_each_line(name, visitor)]; every visitor of the pipeline
    returns [enumeration::move_next], or throws. *)
Definition for_each_line {S : Type} (inf : inf_file) (name : wstring)
    (visitor : line -> S -> result S) (s : S) : result S :=
  lines ← section_lines inf name; for_range lines visitor s.

(** ** reader.h *)

(** [class manufacturer_line]. *)
Record manufacturer_line := {
  manufacturer_line_name : wstring;
  manufacturer_line_models_section_name : wstring;
  manufacturer_line_architectures : list wstring
}.

(** [class device_description_line]. *)
Record device_description_line := {
  device_description : wstring;
  install_section : wstring;
  device_hardware_ids : list wstring
}.

(** [for (size_t i = 1; i < line.size(); ++i) emplace_back(line.field_at(i))]. *)
Definition fields_from_1 (l : line) : list wstring :=
  List.map (line_field_at l) (seq 1 (line_size l - 1)).

Definition manufacturer_of_line (l : line) : manufacturer_line :=
  {| manufacturer_line_name := line_key l;
     manufacturer_line_models_section_name :=
       if 0 <? line_size l then line_field_at l 0 else line_key l;
     manufacturer_line_architectures :=
       if 1 <? line_size l then fields_from_1 l else [] |}.

Definition extract_manufacturers (inf : inf_file) : result (list manufacturer_line) :=
  for_each_line inf (W "Manufacturer")
    (fun l result => Ok (result ++ [manufacturer_of_line l])) [].

Definition missing_install_section : exception :=
  runtime_error "install-section-name field is missing".

(** The visitor of [extract_device_descriptions], for one line. *)
Definition device_of_line (device_entry : line) : result device_description_line :=
  if line_size device_entry =? 0 then Throw missing_install_section
  else Ok {| device_description := line_key device_entry;
             install_section := line_field_at device_entry 0;
             device_hardware_ids :=
               if 1 <? line_size device_entry then fields_from_1 device_entry
               else [] |}.

Definition extract_device_descriptions (inf : inf_file) (models_section_name : wstring)
    : result (list device_description_line) :=
  for_each_line inf models_section_name
    (fun device_entry result =>
       desc ← device_of_line device_entry; Ok (result ++ [desc])) [].

Section Reader.
Context {api : setup_api}.

(** [std::unordered_set<section_name>]: the stored names, no two of
    them equal as section names.  [emplace] keeps the name already
    stored; [find] gives the stored name equal to the one looked up. *)
Definition set_find (name : section_name) (set : list section_name)
    : option section_name :=
  List.find (fun stored => ci_eqb stored name) set.

Definition set_emplace (name : section_name) (set : list section_name)
    : list section_name :=
  match set_find name set with
  | Some _ => set
  | None => set ++ [name]
  end.

Definition extract_sections (inf : inf_file) : list section_name :=
  fold_left (fun result raw_name => set_emplace raw_name result)
    (section_names inf) [].

End Reader.

(** ** report.h *)

(** [class model], [class manufacturer], [report]. *)
Record model := {
  model_description : string;
  model_hardware_ids : list string;
  model_architectures : list string
}.

Record manufacturer := {
  manufacturer_name : string;
  manufacturer_devices : list model
}.

Abbreviation report := (list manufacturer).

(** [class models_sections_correlation]. *)
Record models_sections_correlation := {
  correlation_architecture : wstring;
  correlation_models_section : section_name
}.

Definition delimiter : wchar_t := N_of_ascii "."%char.

(** [std::hash<model_key>]: [size_t] arithmetic wraps at 64 bits.  The
    hashes of the description and of one hardware id are those of
    [std::hash<key_name>] and [std::hash<std::wstring>]. *)
Definition hash_model_key (hash_key_name : key_name -> Z) (hasher : wstring -> Z)
    (key : model_key) : Z :=
  fold_left (fun result id => (result * 131 + hasher id) mod 2 ^ 64)%Z
    (hardware_ids key) (hash_key_name (description key)).

(** [std::unordered_map<model_key, std::vector<std::wstring>>], as the
    sequence of its entries in iteration order. *)
Abbreviation model_data := (list (model_key * list wstring)).

(** Where [insert] places a new entry among the existing ones is the
    standard library's choice (bucket of the hash, rehashing); the
    language only promises that the entries afterwards are the old ones
    and the new one. *)
Class unordered_layout := {
  um_insert : model_key * list wstring -> model_data -> model_data;
  um_insert_perm : forall x m, um_insert x m ≡ₚ x :: m
}.

Section Report.
Context {api : setup_api} {layout : unordered_layout}.

(** The generator, as the list of the correlations it yields. *)
Definition correlate_models_sections (manufacturer : manufacturer_line)
    (all_sections : list section_name) : list models_sections_correlation :=
  match set_find (manufacturer_line_models_section_name manufacturer) all_sections with
  | Some section =>
      [ {| correlation_architecture := [];
           correlation_models_section := section |} ]
  | None => []
  end
  ++ flat_map
       (fun architecture =>
          let composed :=
            manufacturer_line_models_section_name manufacturer
            ++ [delimiter] ++ architecture in
          match set_find composed all_sections with
          | Some section =>
              [ {| correlation_architecture := architecture;
                   correlation_models_section := section |} ]
          | None => []
          end)
       (manufacturer_line_architectures manufacturer).

(** [model_data.find(key)]: the position of the entry whose key equals
    [key], if there is one. *)
Fixpoint um_find (key : model_key) (m : model_data) : option nat :=
  match m with
  | [] => None
  | entry :: m' =>
      if model_key_eqb (fst entry) key then Some 0
      else S <$> um_find key m'
  end.

Definition key_of_device (inf_device : device_description_line) : model_key :=
  {| description := device_description inf_device;
     hardware_ids := device_hardware_ids inf_device |}.

(** The body of the innermost loop of [select_report_data]. *)
Definition aggregate_step (architecture : wstring)
    (inf_device : device_description_line) (m : model_data) : model_data :=
  let key := key_of_device inf_device in
  match um_find key m with
  | Some found =>
      alter (fun entry => (fst entry, snd entry ++ [architecture])) found m
  | None => um_insert (key, [architecture]) m
  end.

(** The loop over the correlated sections of one manufacturer. *)
Definition collect_models (inf : inf_file) (all_sections : list section_name)
    (inf_manufacturer : manufacturer_line) : result model_data :=
  for_range (correlate_models_sections inf_manufacturer all_sections)
    (fun correlation m =>
       devices ← extract_device_descriptions inf
                   (correlation_models_section correlation);
       Ok (fold_left
             (fun m inf_device =>
                aggregate_step (correlation_architecture correlation) inf_device m)
             devices m))
    [].

(** [for (const std::wstring& s : range) out.push_back(to_utf8(s));] *)
Definition to_utf8_all (range : list wstring) : result (list string) :=
  for_range range (fun s out => converted ← to_utf8 s; Ok (out ++ [converted])) [].

(** The model built from one entry of the map: the description is
    converted first, then the hardware ids, then the architectures. *)
Definition model_of_entry (entry : model_key * list wstring) : result model :=
  description ← to_utf8 (description (fst entry));
  hardware_ids ← to_utf8_all (hardware_ids (fst entry));
  architectures ← to_utf8_all (snd entry);
  Ok {| model_description := description;
        model_hardware_ids := hardware_ids;
        model_architectures := architectures |}.

(** The report entry of a manufacturer: its name is converted first,
    then the entries of the map in iteration order. *)
Definition report_entry (inf_manufacturer : manufacturer_line) (m : model_data)
    : result manufacturer :=
  name ← to_utf8 (manufacturer_line_name inf_manufacturer);
  devices ← for_range m
               (fun entry devices =>
                  model ← model_of_entry entry; Ok (devices ++ [model]))
               [];
  Ok {| manufacturer_name := name; manufacturer_devices := devices |}.

Definition select_report_data (inf : inf_file) : result report :=
  let all_sections := extract_sections inf in
  manufacturers ← extract_manufacturers inf;
  for_range manufacturers
    (fun inf_manufacturer output =>
       m ← collect_models inf all_sections inf_manufacturer;
       entry ← report_entry inf_manufacturer m;
       Ok (output ++ [entry]))
    [].

End Report.

(** ** json.h *)

(** A JSON value, as far as the report needs one. *)
#[local] Unset Elimination Schemes.
Inductive json :=
  | json_string (s : string)
  | json_array (elements : list json)
  | json_object (members : list (string * json)).
#[local] Set Elimination Schemes.

Definition strings_to_json (l : list string) : json :=
  json_array (List.map json_string l).

(** [adl_serializer<model>::to_json]. *)
Definition model_to_json (m : model) : json :=
  json_object
    [ ("description"%string, json_string (model_description m));
      ("hardware_ids"%string, strings_to_json (model_hardware_ids m));
      ("architectures"%string, strings_to_json (model_architectures m)) ].

(** [adl_serializer<manufacturer>::to_json]. *)
Definition manufacturer_to_json (m : manufacturer) : json :=
  json_object
    [ ("name"%string, json_string (manufacturer_name m));
      ("devices"%string, json_array (List.map model_to_json (manufacturer_devices m))) ].

Definition report_to_json (r : report) : json :=
  json_array (List.map manufacturer_to_json r).

(** ** main.cpp *)

Inductive exit_codes :=
  | success
  | invalid_arguments
  | error
  | unspecified_error
  | out_of_memory.

(** [static_cast<int>] of an exit code. *)
Definition exit_code_value (c : exit_codes) : Z :=
  match c with
  | success => 0
  | invalid_arguments => 1
  | error => 2
  | unspecified_error => 3
  | out_of_memory => 4
  end.

(** What a run may write to [std::cerr]. *)
Inductive cerr_text :=
  | usage_text
  | error_payload (j : json)
  | unexpected_error_text.

(** A finished run: its exit code and what it wrote to [std::cout] and
    [std::cerr]. *)
Record run := {
  run_exit : exit_codes;
  run_cout : option json;
  run_cerr : option cerr_text
}.

Section Main.
Context {api : setup_api} {layout : unordered_layout}.

(** [open_inf path] is the construction [inf_file file(argv[1])],
    which may throw. *)
Definition main_with_code (open_inf : wstring -> result inf_file)
    (argv : list wstring) : run :=
  if length argv <? 2 then
    {| run_exit := invalid_arguments; run_cout := None;
       run_cerr := Some usage_text |}
  else
    match file ← open_inf (nth 1 argv []); select_report_data file with
    | Ok r =>
        {| run_exit := success; run_cout := Some (report_to_json r);
           run_cerr := None |}
    | Throw bad_alloc =>
        {| run_exit := out_of_memory; run_cout := None; run_cerr := None |}
    | Throw (std_exception what) =>
        {| run_exit := error; run_cout := None;
           run_cerr :=
             Some (error_payload
                     (json_object [("error"%string, json_string what)])) |}
    | Throw unknown_exception =>
        {| run_exit := unspecified_error; run_cout := None;
           run_cerr := Some unexpected_error_text |}
    end.

End Main.

(** ** The vocabulary of the specification *)

Section Vocabulary.
Context {api : setup_api} {layout : unordered_layout}.

(** A section name "exists in the set": some stored name is the same
    section name. *)
Definition section_exists (name : section_name) (set : list section_name) : bool :=
  existsb (fun stored => ci_eqb stored name) set.

(** The Section Correlator in the words of the specification: the
    base section if it exists, then [base.qualifier] for each
    qualifier, in declared order, if it exists. *)
Definition correlator_spec (base : section_name) (qualifiers : list wstring)
    (set : list section_name) : list models_sections_correlation :=
  (if section_exists base set
   then [ {| correlation_architecture := W ""; correlation_models_section := base |} ]
   else [])
  ++ flat_map
       (fun qualifier =>
          let composed := base ++ W "." ++ qualifier in
          if section_exists composed set
          then [ {| correlation_architecture := qualifier;
                    correlation_models_section := composed |} ]
          else [])
       qualifiers.

(** The relation between a yielded correlation and the pair the
    specification names: the same architecture tag, the same section
    name as section names go, the yielded one being the name stored in
    the set. *)
Definition yields_as (set : list section_name)
    (c s : models_sections_correlation) : Prop :=
  correlation_architecture c = correlation_architecture s
  /\ ci_equal (correlation_models_section c) (correlation_models_section s)
  /\ correlation_models_section c ∈ set.

(** The tag sequence the map holds for [key]. *)
Definition tags_of (key : model_key) (m : model_data) : option (list wstring) :=
  snd <$> List.find (fun entry => model_key_eqb (fst entry) key) m.

(** The traversal of one manufacturer: its correlated sections in
    Correlator order, the device lines of each in file order, every
    declaration with the architecture tag of its section. *)
Definition traversal (inf : inf_file) (all_sections : list section_name)
    (inf_manufacturer : manufacturer_line)
    : result (list (wstring * device_description_line)) :=
  for_range (correlate_models_sections inf_manufacturer all_sections)
    (fun correlation t =>
       devices ← extract_device_descriptions inf
                   (correlation_models_section correlation);
       Ok (t ++ List.map (pair (correlation_architecture correlation)) devices))
    [].

(** The aggregation steps of a traversal, from the map [m]. *)
Definition aggregate (t : list (wstring * device_description_line))
    (m : model_data) : model_data :=
  fold_left (fun m observed => aggregate_step (fst observed) (snd observed) m) t m.

(** The ModelKeys of a traversal in first-discovery order: a key is
    listed where it is observed for the first time, as it is written
    there; [seen] are the keys observed before. *)
Fixpoint first_discovered (seen : list model_key)
    (t : list (wstring * device_description_line)) : list model_key :=
  match t with
  | [] => []
  | observed :: t' =>
      let key := key_of_device (snd observed) in
      if existsb (fun k => model_key_eqb k key) seen
      then first_discovered seen t'
      else key :: first_discovered (key :: seen) t'
  end.

(** An entry of the report and the manufacturer line it comes from. *)
Definition entry_of (inf : inf_file) (inf_manufacturer : manufacturer_line)
    (entry : manufacturer) : Prop :=
  exists t,
    traversal inf (extract_sections inf) inf_manufacturer = Ok t
    /\ report_entry inf_manufacturer (aggregate t []) = Ok entry.

(** The identity a model shows in the report. *)
Definition key_in_report (key : model_key) : result (string * list string) :=
  description ← to_utf8 (description key);
  hardware_ids ← to_utf8_all (hardware_ids key);
  Ok (description, hardware_ids).

Definition model_identity (m : model) : string * list string :=
  (model_description m, model_hardware_ids m).

End Vocabulary.

(** ** Concrete documents and a concrete hash table *)

(** A line [key = field, field, ...]. *)
Definition L (key : string) (fields : list string) : line :=
  {| line_key := W key; line_fields := List.map W fields |}.

Section Documents.
Context {api : setup_api}.

(** A document given by its sections, in file order; a section is read
    by its name, compared as section names are. *)
Definition open_document (sections : list (string * list line)) : inf_file :=
  {| section_names := List.map (fun s => W (fst s)) sections;
     section_lines name :=
       match List.find (fun s => ci_eqb (W (fst s)) name) sections with
       | Some s => Ok (snd s)
       | None => Throw (runtime_error "section not found")
       end |}.

End Documents.

(** A chained hash table with a fixed number of buckets: the entries of
    one bucket are adjacent in iteration order; a new entry is placed in
    front of the entries of its bucket, or after all entries when its
    bucket is empty. *)
Fixpoint bucket_insert (bucket : model_key -> Z) (x : model_key * list wstring)
    (m : model_data) : model_data :=
  match m with
  | [] => [x]
  | y :: m' =>
      if (bucket (fst y) =? bucket (fst x))%Z then x :: y :: m'
      else y :: bucket_insert bucket x m'
  end.

(** FNV-1a over the bytes of the code units, low byte first, as a hash
    of wide strings. *)
Definition fnv1a (s : wstring) : Z :=
  fold_left (fun h b => (Z.lxor h b * 1099511628211) mod 2 ^ 64)%Z
    (flat_map (fun c => [Z.of_N c mod 256; Z.of_N c / 256])%Z s)
    14695981039346656037%Z.

(** The bucket of a key in a table of eight buckets, from the hash of
    report.h; the description is hashed with its case normalised, so
    that equal keys have equal hashes. *)
Definition bucket_of_8 (key : model_key) : Z :=
  (hash_model_key (fun d => fnv1a (List.map ascii_fold d)) fnv1a key mod 8)%Z.

(** The declaration a line with at least one field gives. *)
Definition declaration_of_line (l : line) : device_description_line :=
  {| device_description := line_key l;
     install_section := hd [] (line_fields l);
     device_hardware_ids := tail (line_fields l) |}.

Lemma bucket_insert_perm bucket x m : bucket_insert bucket x m ≡ₚ x :: m.
Proof.
  induction m as [|y m IH]; simpl; [done|].
  destruct (bucket (fst y) =? bucket (fst x))%Z; [done|].
  rewrite IH. apply Permutation_swap.
Qed.

Definition chained_layout (bucket : model_key -> Z) : unordered_layout :=
  {| um_insert := bucket_insert bucket;
     um_insert_perm := bucket_insert_perm bucket |}.

Definition fnv_table : unordered_layout := chained_layout bucket_of_8.

(** One manufacturer, three devices in its base section. *)
Definition peripherals : inf_file :=
  @open_document ascii_api
    [ ("Manufacturer"%string, [L "Acme" ["Acme"]]);
      ("Acme"%string,
        [ L "Mouse" ["Mouse_Install"; "USB\VID_1"];
          L "Keyboard" ["Keyboard_Install"; "USB\VID_2"];
          L "Printer" ["Printer_Install"; "USB\VID_3"] ]) ].

(** The scenario of the specification: [D1] in the base section and,
    in other letter case, in the [ntamd64] section; a second
    manufacturer whose sections do not exist. *)
Definition acme : inf_file :=
  @open_document ascii_api
    [ ("Manufacturer"%string,
        [L "Acme" ["Acme"; "ntx86"; "ntamd64"]; L "Ghost" ["Ghost"; "ntamd64"]]);
      ("Acme"%string, [L "D1" ["Sx"; "HW1"]]);
      ("ACME.NTamd64"%string, [L "d1" ["Sy"; "HW1"]; L "D2" ["Sz"]]) ].







(** The declarations of [D1] in the scenario: the first one, a later
    one in other letter case, and that later one written as the first
    but with another install section. *)
Definition d1_first : device_description_line :=
  {| device_description := W "D1"; install_section := W "Sx";
     device_hardware_ids := [W "HW1"] |}.

Definition d1_later : device_description_line :=
  {| device_description := W "d1"; install_section := W "Sy";
     device_hardware_ids := [W "HW1"] |}.

Definition d1_recased : device_description_line :=
  {| device_description := W "D1"; install_section := W "Sz";
     device_hardware_ids := [W "HW1"] |}.

Definition acme_line : manufacturer_line :=
  manufacturer_of_line (L "Acme" ["Acme"; "ntx86"; "ntamd64"]).

(** ** Further vocabulary *)

(** Two reports with the same manufacturers and, for each, the same
    models in possibly different order. *)
Definition same_up_to_device_order (r1 r2 : report) : Prop :=
  Forall2
    (fun entry1 entry2 =>
       manufacturer_name entry1 = manufacturer_name entry2
       /\ manufacturer_devices entry1 ≡ₚ manufacturer_devices entry2)
    r1 r2.


Section Observations.
Context {api : setup_api} {layout : unordered_layout}.

(** The case-normalised form of a section name and of a key. *)
Definition name_normal_form (name : section_name) : wstring :=
  List.map fold_case name.

Definition key_normal_form (key : model_key) : wstring * list wstring :=
  (List.map fold_case (description key), hardware_ids key).

(** The architecture tags under which [key] is observed in a traversal,
    one for each declaration with that key, in traversal order. *)
Definition observed_tags (key : model_key)
    (t : list (wstring * device_description_line)) : list wstring :=
  List.map fst
    (List.filter (fun observed => model_key_eqb (key_of_device (snd observed)) key) t).

(** The model of [key] after the traversal [t]. *)
Definition model_of_key (t : list (wstring * device_description_line))
    (key : model_key) : result model :=
  model_of_entry (key, observed_tags key t).

(** An exception of a text conversion. *)
Definition conversion_throws (e : exception) : Prop :=
  exists s, to_utf8 s = Throw e.

(** Two outcomes that differ only by the order of the models, or by
    which text failed to convert first. *)
Definition same_entry_outcome (r1 r2 : result manufacturer) : Prop :=
  match r1, r2 with
  | Ok entry1, Ok entry2 =>
      manufacturer_name entry1 = manufacturer_name entry2
      /\ manufacturer_devices entry1 ≡ₚ manufacturer_devices entry2
  | Throw e1, Throw e2 =>
      e1 = e2 \/ (conversion_throws e1 /\ conversion_throws e2)
  | _, _ => False
  end.

(** [wmain]: the exit code of [main_with_code] as an [int]. *)
Definition wmain (open_inf : wstring -> result inf_file) (argv : list wstring) : Z :=
  exit_code_value (run_exit (main_with_code open_inf argv)).

End Observations.

(** ** Equality of texts and keys *)

Lemma ranges_equal_spec {A} (eqb : A -> A -> bool) (R : A -> A -> Prop) :
  (forall x y, eqb x y = true <-> R x y) ->
  forall l r, ranges_equal eqb l r = true <-> Forall2 R l r.
Proof.
  intros Heqb l. induction l as [|x l IH]; intros [|y r]; simpl.
  - split; [constructor | done].
  - split; [done | inversion 1].
  - split; [done | inversion 1].
  - rewrite andb_true_iff, Heqb, IH. split.
    + intros [? ?]. by constructor.
    + by inversion 1.
Qed.

Lemma wstring_eqb_eq (l r : wstring) : wstring_eqb l r = true <-> l = r.
Proof.
  unfold wstring_eqb.
  rewrite (ranges_equal_spec N.eqb eq) by apply N.eqb_eq.
  symmetry. apply list_eq_Forall2.
Qed.

Lemma hardware_ids_equal_eq (l r : list wstring) :
  ranges_equal wstring_eqb l r = true <-> l = r.
Proof.
  rewrite (ranges_equal_spec wstring_eqb eq) by apply wstring_eqb_eq.
  symmetry. apply list_eq_Forall2.
Qed.

Section KeyFacts.
Context {api : setup_api}.

Lemma ci_eqb_equal (l r : wstring) : ci_eqb l r = true <-> ci_equal l r.
Proof.
  unfold ci_eqb, ci_equal.
  rewrite (ranges_equal_spec _ (fun x y => fold_case x = fold_case y))
    by (intros; apply N.eqb_eq).
  revert r. induction l as [|x l IH]; intros [|y r]; simpl.
  - split; [done | constructor].
  - split; [inversion 1 | done].
  - split; [inversion 1 | done].
  - split.
    + inversion 1; subst. f_equal; [done | by apply IH].
    + intros [= Hx Hl]. constructor; [done | by apply IH].
Qed.

Lemma model_key_eqb_spec (left right : model_key) :
  model_key_eqb left right = true <->
  ci_equal (description left) (description right)
  /\ hardware_ids left = hardware_ids right.
Proof.
  unfold model_key_eqb.
  by rewrite andb_true_iff, ci_eqb_equal, hardware_ids_equal_eq.
Qed.

Lemma model_key_eqb_refl k : model_key_eqb k k = true.
Proof. by apply model_key_eqb_spec. Qed.

Lemma model_key_eqb_sym k1 k2 : model_key_eqb k1 k2 = model_key_eqb k2 k1.
Proof.
  apply eq_true_iff_eq. rewrite !model_key_eqb_spec. unfold ci_equal.
  split; intros [H1 H2]; split; congruence.
Qed.

Lemma model_key_eqb_trans k1 k2 k3 :
  model_key_eqb k1 k2 = true -> model_key_eqb k2 k3 = true ->
  model_key_eqb k1 k3 = true.
Proof.
  rewrite !model_key_eqb_spec. unfold ci_equal.
  intros [H1 H2] [H3 H4]. split; congruence.
Qed.

(** Equal keys are interchangeable on either side of a comparison. *)
Lemma model_key_eqb_congr k1 k2 k :
  model_key_eqb k1 k2 = true -> model_key_eqb k1 k = model_key_eqb k2 k.
Proof.
  intros H. apply eq_true_iff_eq. split; intros H'.
  - rewrite model_key_eqb_sym in H. by eapply model_key_eqb_trans.
  - by eapply model_key_eqb_trans.
Qed.

End KeyFacts.

(** ** Loops and the reader *)




(** A loop that pushes the result of [f] for each element returns the
    results, element by element, or throws. *)
Lemma for_range_push_Ok {A B} (f : A -> result B) (l : list A) (acc r : list B) :
  for_range l (fun x out => y ← f x; Ok (out ++ [y])) acc = Ok r
  <-> exists ys, r = acc ++ ys /\ Forall2 (fun x y => f x = Ok y) l ys.
Proof.
  revert acc. induction l as [|x l IH]; intros acc; simpl.
  - split.
    + intros [= <-]. exists []. by rewrite app_nil_r.
    + intros (ys & -> & Hys). inv Hys. by rewrite app_nil_r.
  - destruct (f x) as [y|e] eqn:Hx; simpl.
    + rewrite IH. split.
      * intros (ys & -> & Hys). exists (y :: ys).
        rewrite <- app_assoc. split; [done|]. by constructor.
      * intros (ys & -> & Hys). inv Hys.
        assert (y0 = y) as -> by congruence.
        exists l'. by rewrite <- app_assoc.
    + split; [done|]. intros (ys & _ & Hys). inv Hys. congruence.
Qed.

Lemma for_range_push_all {A B} (f : A -> result B) (l : list A) (ys : list B) :
  for_range l (fun x out => y ← f x; Ok (out ++ [y])) [] = Ok ys
  <-> Forall2 (fun x y => f x = Ok y) l ys.
Proof.
  rewrite for_range_push_Ok. split; [by intros (? & -> & ?) | by exists ys].
Qed.

Lemma fields_from_1_tail (l : line) : fields_from_1 l = tail (line_fields l).
Proof.
  unfold fields_from_1, line_size, line_field_at.
  destruct (line_fields l) as [|f fs]; [done|]. simpl.
  rewrite Nat.sub_0_r. apply list_eq. intros i.
  rewrite list_lookup_fmap.
  destruct (decide (i < length fs)) as [Hi|Hi].
  - rewrite lookup_seq_lt by done. simpl.
    destruct (lookup_lt_is_Some_2 fs i Hi) as [x Hx]. rewrite Hx.
    f_equal. by apply nth_lookup_Some with (d := []) in Hx.
  - rewrite lookup_seq_ge by lia. simpl. symmetry.
    apply lookup_ge_None. lia.
Qed.

Lemma device_of_line_fields (l : line) :
  device_of_line l =
    match line_fields l with
    | [] => Throw missing_install_section
    | _ :: _ => Ok (declaration_of_line l)
    end.
Proof.
  unfold device_of_line, declaration_of_line. rewrite fields_from_1_tail.
  unfold line_size, line_field_at.
  destruct (line_fields l) as [|f [|g fs]]; reflexivity.
Qed.

Lemma manufacturer_of_line_fields (l : line) :
  manufacturer_of_line l =
    {| manufacturer_line_name := line_key l;
       manufacturer_line_models_section_name :=
         match line_fields l with [] => line_key l | f :: _ => f end;
       manufacturer_line_architectures := tail (line_fields l) |}.
Proof.
  unfold manufacturer_of_line. rewrite fields_from_1_tail.
  unfold line_size, line_field_at.
  destruct (line_fields l) as [|f [|g fs]]; reflexivity.
Qed.

Lemma visit_manufacturers (ls : list line) (acc : list manufacturer_line) :
  for_range ls (fun l result => Ok (result ++ [manufacturer_of_line l])) acc
  = Ok (acc ++ List.map manufacturer_of_line ls).
Proof.
  revert acc. induction ls as [|l ls IH]; intros acc; simpl.
  - by rewrite app_nil_r.
  - rewrite IH. by rewrite <- app_assoc.
Qed.

Lemma extract_manufacturers_lines (inf : inf_file) :
  extract_manufacturers inf =
    (lines ← section_lines inf (W "Manufacturer");
     Ok (List.map manufacturer_of_line lines)).
Proof.
  unfold extract_manufacturers, for_each_line.
  destruct (section_lines inf (W "Manufacturer")) as [ls|e]; simpl; [|done].
  apply visit_manufacturers.
Qed.

Lemma visit_devices (ls : list line) (acc : list device_description_line) :
  for_range ls
    (fun device_entry result =>
       desc ← device_of_line device_entry; Ok (result ++ [desc])) acc
  = if forallb (fun l => negb (line_size l =? 0)) ls
    then Ok (acc ++ List.map declaration_of_line ls)
    else Throw missing_install_section.
Proof.
  revert acc. induction ls as [|l ls IH]; intros acc; simpl.
  - by rewrite app_nil_r.
  - rewrite device_of_line_fields. unfold line_size.
    destruct (line_fields l) as [|f fs] eqn:Hl; simpl; [done|].
    rewrite IH. by rewrite <- app_assoc.
Qed.

Lemma extract_device_descriptions_lines (inf : inf_file) (name : wstring) :
  extract_device_descriptions inf name =
    (lines ← section_lines inf name;
     if forallb (fun l => negb (line_size l =? 0)) lines
     then Ok (List.map declaration_of_line lines)
     else Throw missing_install_section).
Proof.
  unfold extract_device_descriptions, for_each_line.
  destruct (section_lines inf name) as [ls|e]; simpl; [|done].
  apply visit_devices.
Qed.

(** ** The Section Correlator *)

Section Correlator.
Context {api : setup_api}.

Lemma set_find_Some name set stored :
  set_find name set = Some stored ->
  ci_equal stored name /\ stored ∈ set /\ section_exists name set = true.
Proof.
  unfold set_find, section_exists. intros H.
  destruct (find_some _ _ H) as [Hin Heq].
  split; [by apply ci_eqb_equal|]. split; [by apply list_elem_of_In|].
  apply existsb_exists. eauto.
Qed.

Lemma set_find_None name set :
  set_find name set = None -> section_exists name set = false.
Proof.
  unfold set_find, section_exists. intros H.
  apply not_true_is_false. intros (stored & Hin & Heq)%existsb_exists.
  by rewrite (find_none _ _ H stored Hin) in Heq.
Qed.

Lemma correlate_one set architecture name :
  Forall2 (yields_as set)
    match set_find name set with
    | Some section =>
        [ {| correlation_architecture := architecture;
             correlation_models_section := section |} ]
    | None => []
    end
    (if section_exists name set
     then [ {| correlation_architecture := architecture;
               correlation_models_section := name |} ]
     else []).
Proof.
  destruct (set_find name set) as [stored|] eqn:Hfind.
  - destruct (set_find_Some _ _ _ Hfind) as (Heq & Hin & ->).
    repeat constructor; done.
  - rewrite (set_find_None _ _ Hfind). constructor.
Qed.

Lemma correlate_matches_spec manufacturer all_sections :
  Forall2 (yields_as all_sections)
    (correlate_models_sections manufacturer all_sections)
    (correlator_spec (manufacturer_line_models_section_name manufacturer)
       (manufacturer_line_architectures manufacturer) all_sections).
Proof.
  unfold correlate_models_sections, correlator_spec.
  apply Forall2_app; [apply correlate_one|].
  induction (manufacturer_line_architectures manufacturer) as [|q qs IH]; simpl.
  - constructor.
  - apply Forall2_app; [|apply IH]. apply correlate_one.
Qed.

Lemma correlate_in_set manufacturer all_sections c :
  c ∈ correlate_models_sections manufacturer all_sections ->
  correlation_models_section c ∈ all_sections.
Proof.
  intros [i Hi]%list_elem_of_lookup_1.
  destruct (Forall2_lookup_l _ _ _ i c
              (correlate_matches_spec manufacturer all_sections) Hi)
    as (s & _ & _ & _ & H).
  exact H.
Qed.

End Correlator.

(** C2. For every manufacturer declaration and every set of section
    names, the Correlator yields exactly the pairs the specification
    lists, in that order: the base section with the empty architecture
    tag if and only if the base name is in the set, then, for each
    qualifier in declared order, [base.qualifier] with that qualifier as
    tag if and only if the composed name is in the set.  A name that is
    not in the set contributes nothing, and nothing is raised: the
    result is a plain list.  Section names are identified as section
    names are (ignoring case); the name yielded is the one stored in the
    set. *)
Theorem correlator_yields_spec `{api : setup_api}
    (manufacturer : manufacturer_line) (all_sections : list section_name) :
  Forall2 (yields_as all_sections)
    (correlate_models_sections manufacturer all_sections)
    (correlator_spec (manufacturer_line_models_section_name manufacturer)
       (manufacturer_line_architectures manufacturer) all_sections).
Proof. apply correlate_matches_spec. Qed.

(** ** ModelKey equality *)

(** C3. Two ModelKeys are equal if and only if their descriptions are
    equal case-insensitively and their hardware-id sequences are equal
    element by element, in order, as they are written; so keys whose
    hardware ids differ, be it only in letter case, are not equal. *)
Theorem model_key_equality `{api : setup_api} (left right : model_key) :
  (model_key_eqb left right = true <->
     ci_equal (description left) (description right)
     /\ hardware_ids left = hardware_ids right)
  /\ (hardware_ids left <> hardware_ids right -> model_key_eqb left right = false).
Proof.
  split; [apply model_key_eqb_spec|].
  intros Hne. apply not_true_is_false. rewrite model_key_eqb_spec. tauto.
Qed.

(** The scenario of the specification: [HW1] and [hw1] are different
    hardware ids, [D1] and [d1] the same description. *)
Lemma model_key_equality_witness :
  @model_key_eqb ascii_api
    {| description := W "D1"; hardware_ids := [W "HW1"] |}
    {| description := W "d1"; hardware_ids := [W "hw1"] |} = false
  /\ @model_key_eqb ascii_api
       {| description := W "D1"; hardware_ids := [W "HW1"] |}
       {| description := W "d1"; hardware_ids := [W "HW1"] |} = true.
Proof.
  split.
  - apply (@model_key_equality ascii_api
             {| description := W "D1"; hardware_ids := [W "HW1"] |}
             {| description := W "d1"; hardware_ids := [W "hw1"] |}).
    simpl. discriminate.
  - apply (@model_key_equality ascii_api
             {| description := W "D1"; hardware_ids := [W "HW1"] |}
             {| description := W "d1"; hardware_ids := [W "HW1"] |}).
    split; reflexivity.
Defined.

(** ** Device declarations *)

(** C5, as the code has it.  A device line gives no declaration exactly
    when it has no field at all, and the exception is then the missing
    install section.  With at least one field the declaration is made:
    field 0 is the install section and the hardware ids are the fields
    after it, so a line with exactly one field gives a declaration whose
    hardware-id sequence is empty. *)
Theorem device_declaration_needs_install_section (device_entry : line) :
  (device_of_line device_entry = Throw missing_install_section
     <-> line_fields device_entry = [])
  /\ (forall install ids, line_fields device_entry = install :: ids ->
        device_of_line device_entry =
          Ok {| device_description := line_key device_entry;
                install_section := install;
                device_hardware_ids := ids |}).
Proof.
  rewrite device_of_line_fields. unfold declaration_of_line.
  destruct (line_fields device_entry) as [|f fs]; split; try done.
  intros install ids [= -> ->]. done.
Qed.

Lemma device_declaration_needs_install_section_witness :
  device_of_line (L "D1" ["S1"; "HW1"; "HW2"]) =
    Ok {| device_description := W "D1"; install_section := W "S1";
          device_hardware_ids := [W "HW1"; W "HW2"] |}.
Proof.
  apply (device_declaration_needs_install_section (L "D1" ["S1"; "HW1"; "HW2"])).
  reflexivity.
Defined.

(** C5 as it is stated fails: the line [D1 = S1] is parsed without an
    exception into a declaration with no hardware id. *)
Lemma empty_hardware_ids_declared :
  extract_device_descriptions
    (@open_document ascii_api [("Acme"%string, [L "D1" ["S1"]])]) (W "Acme")
  = Ok [ {| device_description := W "D1"; install_section := W "S1";
            device_hardware_ids := [] |} ].
Proof. reflexivity. Qed.

(** ** The Deduplicating Aggregator *)

Lemma existsb_Permutation {A} (f : A -> bool) (l l' : list A) :
  l ≡ₚ l' -> existsb f l = existsb f l'.
Proof.
  intros Hp. apply eq_true_iff_eq. rewrite !existsb_exists.
  split; intros (x & Hin & Hx); exists x; split; try done.
  - by rewrite <- list_elem_of_In, <- Hp, list_elem_of_In.
  - by rewrite <- list_elem_of_In, Hp, list_elem_of_In.
Qed.

(** [find] gives the only element that satisfies the predicate. *)
Lemma find_unique {A} (P : A -> bool) (l : list A) (x : A) :
  x ∈ l -> P x = true -> (forall y, y ∈ l -> P y = true -> y = x) ->
  List.find P l = Some x.
Proof.
  induction l as [|y l IH]; intros Hin Hx Huniq; [by inv Hin|]. simpl.
  destruct (P y) eqn:Hy.
  - f_equal. apply Huniq; [left | done].
  - apply IH; [|done|].
    + inv Hin; [congruence | done].
    + intros z Hz. apply Huniq. by right.
Qed.

Section Aggregator.
Context {api : setup_api} {layout : unordered_layout}.

Implicit Types (m : model_data) (key : model_key)
  (t : list (wstring * device_description_line)).

Lemma um_find_None key m :
  um_find key m = None <->
  existsb (fun k => model_key_eqb k key) (List.map fst m) = false.
Proof.
  induction m as [|entry m IH]; simpl; [done|].
  destruct (model_key_eqb (fst entry) key); simpl; [done|].
  by rewrite fmap_None.
Qed.

Lemma um_find_None_find key m :
  um_find key m = None <->
  List.find (fun entry => model_key_eqb (fst entry) key) m = None.
Proof.
  induction m as [|entry m IH]; simpl; [done|].
  destruct (model_key_eqb (fst entry) key); simpl; [done|].
  by rewrite fmap_None.
Qed.

(** What [find] found: the entry at that position has an equal key,
    it is the first such entry, and it stays the first one when its
    tags are replaced. *)
Lemma um_find_Some key m found :
  um_find key m = Some found ->
  exists stored tags,
    m !! found = Some (stored, tags)
    /\ model_key_eqb stored key = true
    /\ List.find (fun entry => model_key_eqb (fst entry) key) m
       = Some (stored, tags)
    /\ forall tags',
         List.find (fun entry => model_key_eqb (fst entry) key)
           (<[found := (stored, tags')]> m) = Some (stored, tags').
Proof.
  revert found. induction m as [|[k0 tags0] m IH]; intros found; simpl; [done|].
  destruct (model_key_eqb k0 key) eqn:Hk.
  - intros [= <-]. exists k0, tags0. simpl. by rewrite Hk.
  - destruct (um_find key m) as [i|] eqn:Hfind; simpl; [|done].
    intros [= <-]. destruct (IH i eq_refl) as (stored & tags & ? & ? & ? & Hrep).
    exists stored, tags. simpl. rewrite Hk. repeat split; try done.
Qed.

Lemma alter_append_tag m found stored tags architecture :
  m !! found = Some (stored, tags) ->
  alter (fun entry => (fst entry, snd entry ++ [architecture])) found m
  = <[found := (stored, tags ++ [architecture])]> m.
Proof.
  revert found. induction m as [|e m IH]; intros [|i]; simpl; try done.
  - by intros [= ->].
  - intros H. f_equal. by apply IH.
Qed.

Lemma um_find_congr key key' m :
  model_key_eqb key' key = true -> um_find key' m = um_find key m.
Proof.
  intros Heq. induction m as [|entry m IH]; simpl; [done|].
  rewrite IH.
  rewrite (model_key_eqb_sym (fst entry) key'), (model_key_eqb_sym (fst entry) key).
  by rewrite (model_key_eqb_congr _ _ _ Heq).
Qed.

(** The two cases of an aggregation step. *)
Lemma aggregate_step_found architecture inf_device m tags :
  tags_of (key_of_device inf_device) m = Some tags ->
  exists found stored,
    m !! found = Some (stored, tags)
    /\ model_key_eqb stored (key_of_device inf_device) = true
    /\ aggregate_step architecture inf_device m
       = <[found := (stored, tags ++ [architecture])]> m
    /\ tags_of (key_of_device inf_device)
         (aggregate_step architecture inf_device m)
       = Some (tags ++ [architecture]).
Proof.
  unfold tags_of, aggregate_step. intros Htags.
  destruct (um_find (key_of_device inf_device) m) as [found|] eqn:Hfind.
  - destruct (um_find_Some _ _ _ Hfind) as (stored & tags0 & Hat & Heq & Hf & Hrep).
    rewrite Hf in Htags. injection Htags as ->.
    exists found, stored. rewrite (alter_append_tag _ _ _ _ _ Hat).
    repeat split; try done. by rewrite Hrep.
  - apply um_find_None_find in Hfind. by rewrite Hfind in Htags.
Qed.

Lemma aggregate_step_absent architecture inf_device m :
  tags_of (key_of_device inf_device) m = None ->
  aggregate_step architecture inf_device m
    ≡ₚ (key_of_device inf_device, [architecture]) :: m
  /\ tags_of (key_of_device inf_device)
       (aggregate_step architecture inf_device m)
     = Some [architecture].
Proof.
  unfold tags_of, aggregate_step. intros Htags.
  apply fmap_None in Htags. pose proof Htags as Hnone.
  apply um_find_None_find in Htags. rewrite Htags.
  split; [apply um_insert_perm|].
  rewrite (find_unique _ _ (key_of_device inf_device, [architecture]));
    [reflexivity| | |].
  - rewrite um_insert_perm. left.
  - apply model_key_eqb_refl.
  - intros y Hy Heq. rewrite um_insert_perm in Hy. inv Hy; [done|].
    apply list_elem_of_In in H1.
    by rewrite (find_none _ _ Hnone y H1) in Heq.
Qed.

Lemma aggregate_step_keys architecture inf_device m :
  List.map fst (aggregate_step architecture inf_device m)
  ≡ₚ if existsb (fun k => model_key_eqb k (key_of_device inf_device))
          (List.map fst m)
     then List.map fst m
     else key_of_device inf_device :: List.map fst m.
Proof.
  unfold aggregate_step.
  destruct (um_find (key_of_device inf_device) m) as [found|] eqn:Hfind.
  - destruct (existsb _ _) eqn:Hex;
      [|apply um_find_None in Hex; congruence].
    destruct (um_find_Some _ _ _ Hfind) as (stored & tags & Hat & _).
    rewrite (alter_append_tag _ _ _ _ _ Hat).
    replace (List.map fst (<[found:=(stored, tags ++ [architecture])]> m))
      with (List.map fst m); [done|].
    change (fst <$> m = fst <$> <[found:=(stored, tags ++ [architecture])]> m).
    rewrite list_fmap_insert. simpl. symmetry. apply list_insert_id.
    by rewrite list_lookup_fmap, Hat.
  - apply um_find_None in Hfind. rewrite Hfind.
    change (fst <$> um_insert (key_of_device inf_device, [architecture]) m
            ≡ₚ fst (key_of_device inf_device, [architecture]) :: (fst <$> m)).
    by rewrite um_insert_perm.
Qed.

Lemma aggregate_app t1 t2 m :
  aggregate (t1 ++ t2) m = aggregate t2 (aggregate t1 m).
Proof. apply fold_left_app. Qed.

(** The keys of the map after a traversal are the keys it had and the
    newly discovered ones, in some order. *)
Lemma aggregate_keys t m seen :
  List.map fst m ≡ₚ seen ->
  List.map fst (aggregate t m) ≡ₚ seen ++ first_discovered seen t.
Proof.
  revert m seen. induction t as [|[a d] t IH]; intros m seen Hseen; simpl.
  - by rewrite app_nil_r.
  - pose proof (aggregate_step_keys a d m) as Hstep.
    rewrite (existsb_Permutation _ _ _ Hseen) in Hstep.
    destruct (existsb _ seen).
    + apply IH. by rewrite Hstep.
    + rewrite (IH _ (key_of_device d :: seen)).
      * simpl. apply Permutation_middle.
      * by rewrite Hstep, Hseen.
Qed.

Lemma aggregate_keys_first_discovered t :
  List.map fst (aggregate t []) ≡ₚ first_discovered [] t.
Proof. by rewrite (aggregate_keys t [] []). Qed.

End Aggregator.

(** ** The Report Assembler *)

Section Assembler.
Context {api : setup_api} {layout : unordered_layout}.

Implicit Types (m : model_data) (key : model_key)
  (t : list (wstring * device_description_line)).

Lemma aggregate_tagged architecture devices m :
  aggregate (List.map (pair architecture) devices) m
  = fold_left (fun m inf_device => aggregate_step architecture inf_device m)
      devices m.
Proof.
  revert m. induction devices as [|d ds IH]; intros m; simpl; [done|]. apply IH.
Qed.

Lemma collect_models_from inf correlations t0 :
  for_range correlations
    (fun correlation m =>
       devices ← extract_device_descriptions inf
                   (correlation_models_section correlation);
       Ok (fold_left
             (fun m inf_device =>
                aggregate_step (correlation_architecture correlation) inf_device m)
             devices m))
    (aggregate t0 [])
  = (t ← for_range correlations
           (fun correlation t =>
              devices ← extract_device_descriptions inf
                          (correlation_models_section correlation);
              Ok (t ++ List.map (pair (correlation_architecture correlation)) devices))
           t0;
     Ok (aggregate t [])).
Proof.
  revert t0. induction correlations as [|c cs IH]; intros t0; simpl; [done|].
  destruct (extract_device_descriptions inf (correlation_models_section c))
    as [devices|e]; simpl; [|done].
  rewrite <- IH. by rewrite aggregate_app, aggregate_tagged.
Qed.

(** The map of one manufacturer is the aggregation of its traversal. *)
Lemma collect_models_traversal inf all_sections inf_manufacturer :
  collect_models inf all_sections inf_manufacturer
  = (t ← traversal inf all_sections inf_manufacturer; Ok (aggregate t [])).
Proof. apply (collect_models_from inf _ []). Qed.

Lemma to_utf8_all_Ok (range : list wstring) (converted : list string) :
  to_utf8_all range = Ok converted
  <-> Forall2 (fun s c => to_utf8 s = Ok c) range converted.
Proof. apply for_range_push_all. Qed.

Lemma model_of_entry_Ok (entry : model_key * list wstring) (d : model) :
  model_of_entry entry = Ok d
  <-> to_utf8 (description (fst entry)) = Ok (model_description d)
      /\ to_utf8_all (hardware_ids (fst entry)) = Ok (model_hardware_ids d)
      /\ to_utf8_all (snd entry) = Ok (model_architectures d).
Proof.
  unfold model_of_entry.
  destruct (to_utf8 (description (fst entry))) as [dsc|e]; simpl;
    [|split; [done | by intros (? & _)]].
  destruct (to_utf8_all (hardware_ids (fst entry))) as [ids|e]; simpl;
    [|split; [done | by intros (_ & ? & _)]].
  destruct (to_utf8_all (snd entry)) as [tags|e]; simpl;
    [|split; [done | by intros (_ & _ & ?)]].
  destruct d as [dsc' ids' tags']. simpl. split.
  - by intros [= -> -> ->].
  - by intros ([= ->] & [= ->] & [= ->]).
Qed.

Lemma report_entry_Ok inf_manufacturer (m : model_data) (entry : manufacturer) :
  report_entry inf_manufacturer m = Ok entry
  <-> to_utf8 (manufacturer_line_name inf_manufacturer)
      = Ok (manufacturer_name entry)
      /\ Forall2 (fun e d => model_of_entry e = Ok d) m
           (manufacturer_devices entry).
Proof.
  unfold report_entry.
  destruct (to_utf8 (manufacturer_line_name inf_manufacturer)) as [name|e];
    simpl; [|split; [done | by intros (? & _)]].
  destruct (for_range m _ []) as [devices|e] eqn:Hloop; simpl.
  - apply for_range_push_all in Hloop. destruct entry as [name' devices'].
    simpl. split.
    + by intros [= -> ->].
    + intros ([= ->] & Hall). f_equal. f_equal.
      apply for_range_push_all in Hall. apply for_range_push_all in Hloop.
      congruence.
  - split; [done|]. intros (_ & Hall%for_range_push_all). congruence.
Qed.

Lemma assemble_Ok inf manufacturers output r :
  for_range manufacturers
    (fun inf_manufacturer output =>
       m ← collect_models inf (extract_sections inf) inf_manufacturer;
       entry ← report_entry inf_manufacturer m;
       Ok (output ++ [entry]))
    output = Ok r ->
  exists entries,
    r = output ++ entries /\ Forall2 (entry_of inf) manufacturers entries.
Proof.
  revert output. induction manufacturers as [|im ms IH]; intros output; simpl.
  - intros [= <-]. exists []. by rewrite app_nil_r.
  - rewrite collect_models_traversal.
    destruct (traversal inf (extract_sections inf) im) as [t|e] eqn:Ht;
      simpl; [|done].
    destruct (report_entry im (aggregate t [])) as [entry|e] eqn:Hentry;
      simpl; [|done].
    intros (entries & -> & Hall)%IH.
    exists (entry :: entries).
    rewrite <- app_assoc. split; [done|]. constructor; [|done]. by exists t.
Qed.

(** A report that is returned has one entry for each manufacturer line,
    in their order. *)
Lemma select_report_data_entries inf r :
  select_report_data inf = Ok r ->
  exists manufacturers,
    extract_manufacturers inf = Ok manufacturers
    /\ Forall2 (entry_of inf) manufacturers r.
Proof.
  unfold select_report_data.
  destruct (extract_manufacturers inf) as [ms|e]; simpl; [|done].
  intros (entries & -> & Hall)%assemble_Ok. by exists ms.
Qed.

(** Tags are never removed, and a key enters the map with one tag. *)
Lemma aggregate_step_tags architecture inf_device m :
  Forall (fun entry => snd entry <> []) m ->
  Forall (fun entry => snd entry <> []) (aggregate_step architecture inf_device m).
Proof.
  intros Hm. unfold aggregate_step.
  destruct (um_find (key_of_device inf_device) m) as [found|].
  - apply Forall_alter; [done|]. intros entry _ _. simpl. by destruct (snd entry).
  - rewrite um_insert_perm. by constructor.
Qed.

Lemma aggregate_tags t m :
  Forall (fun entry => snd entry <> []) m ->
  Forall (fun entry => snd entry <> []) (aggregate t m).
Proof.
  revert m. induction t as [|x t IH]; intros m Hm; simpl; [done|].
  apply IH. by apply aggregate_step_tags.
Qed.

End Assembler.

Section Ordering.
Context {api : setup_api} {layout : unordered_layout}.

Lemma model_of_entry_identity (entry : model_key * list wstring) (d : model) :
  model_of_entry entry = Ok d ->
  key_in_report (fst entry) = Ok (model_identity d).
Proof.
  intros (Hd & Hh & _)%model_of_entry_Ok. unfold key_in_report, model_identity.
  by rewrite Hd, Hh.
Qed.

Lemma Forall2_map_eq {A B C} (f : A -> C) (g : B -> C) (l : list A) (k : list B) :
  Forall2 (fun x y => f x = g y) l k -> List.map f l = List.map g k.
Proof. induction 1; simpl; congruence. Qed.

Lemma entry_of_discovery inf inf_manufacturer entry :
  entry_of inf inf_manufacturer entry ->
  exists t,
    traversal inf (extract_sections inf) inf_manufacturer = Ok t
    /\ List.map (fun d => Ok (model_identity d)) (manufacturer_devices entry)
       ≡ₚ List.map key_in_report (first_discovered [] t).
Proof.
  intros (t & Ht & (_ & Hall)%report_entry_Ok). exists t. split; [done|].
  rewrite <- aggregate_keys_first_discovered, List.map_map. symmetry.
  erewrite Forall2_map_eq; [reflexivity|].
  eapply Forall2_impl; [exact Hall|]. apply model_of_entry_identity.
Qed.

Lemma entry_of_architectures inf inf_manufacturer entry :
  entry_of inf inf_manufacturer entry ->
  Forall (fun d => 1 <= length (model_architectures d)) (manufacturer_devices entry).
Proof.
  intros (t & _ & (_ & Hall)%report_entry_Ok).
  pose proof (aggregate_tags t [] (Forall_nil_2 _)) as Htags.
  eapply Forall2_Forall_r; [exact Hall|].
  eapply Forall_impl; [exact Htags|]. intros e Hne d.
  intros (_ & _ & Ha%to_utf8_all_Ok)%model_of_entry_Ok.
  apply Forall2_length in Ha. rewrite <- Ha. simpl in Hne.
  destruct (snd e); simpl; [congruence | lia].
Qed.

End Ordering.

(** C1, as the code has it.  In a report that is returned, the
    [devices] of every manufacturer hold each distinct ModelKey of its
    traversal exactly once, written as it was first discovered: the list
    is a rearrangement of the first-discovery sequence.  Its order is
    the iteration order of the unordered map, whatever that map's layout
    is. *)
Theorem devices_rearrange_first_discovery `{api : setup_api}
    `{layout : unordered_layout} (inf : inf_file) (r : report) :
  select_report_data inf = Ok r ->
  exists manufacturers,
    extract_manufacturers inf = Ok manufacturers
    /\ Forall2
         (fun inf_manufacturer entry =>
            exists t,
              traversal inf (extract_sections inf) inf_manufacturer = Ok t
              /\ List.map (fun d => Ok (model_identity d))
                   (manufacturer_devices entry)
                 ≡ₚ List.map key_in_report (first_discovered [] t))
         manufacturers r.
Proof.
  intros (ms & Hms & Hall)%select_report_data_entries.
  exists ms. split; [done|].
  eapply Forall2_impl; [exact Hall|]. apply entry_of_discovery.
Qed.

Lemma devices_rearrange_first_discovery_witness :
  exists manufacturers,
    extract_manufacturers peripherals = Ok manufacturers
    /\ Forall2
         (fun inf_manufacturer entry =>
            exists t,
              @traversal ascii_api peripherals
                (@extract_sections ascii_api peripherals) inf_manufacturer = Ok t
              /\ List.map (fun d => Ok (model_identity d))
                   (manufacturer_devices entry)
                 ≡ₚ List.map (@key_in_report ascii_api)
                      (@first_discovered ascii_api [] t))
         manufacturers
         [ {| manufacturer_name := "Acme";
              manufacturer_devices :=
                [ {| model_description := "Mouse";
                     model_hardware_ids := ["USB\VID_1"%string];
                     model_architectures := [""%string] |};
                  {| model_description := "Printer";
                     model_hardware_ids := ["USB\VID_3"%string];
                     model_architectures := [""%string] |};
                  {| model_description := "Keyboard";
                     model_hardware_ids := ["USB\VID_2"%string];
                     model_architectures := [""%string] |} ] |} ].
Proof.
  apply (@devices_rearrange_first_discovery ascii_api fnv_table peripherals).
  vm_compute. reflexivity.
Defined.

(** C1 as it is stated fails.  With a chained hash table of eight
    buckets and the FNV-1a hash, [Keyboard] and [Printer] fall into one
    bucket: the report lists [Printer] before [Keyboard], although
    [Keyboard] was discovered first. *)
Lemma devices_not_in_discovery_order :
  exists entry t,
    @select_report_data ascii_api fnv_table peripherals = Ok [entry]
    /\ @traversal ascii_api peripherals (@extract_sections ascii_api peripherals)
         (manufacturer_of_line (L "Acme" ["Acme"])) = Ok t
    /\ List.map model_description (manufacturer_devices entry)
       = ["Mouse"; "Printer"; "Keyboard"]%string
    /\ List.map (fun key => @to_utf8 ascii_api (description key))
         (@first_discovered ascii_api [] t)
       = [Ok "Mouse"; Ok "Keyboard"; Ok "Printer"]%string
    /\ List.map (fun d => Ok (model_identity d)) (manufacturer_devices entry)
       <> List.map (@key_in_report ascii_api) (@first_discovered ascii_api [] t).
Proof.
  eexists _, _. split; [vm_compute; reflexivity|].
  split; [vm_compute; reflexivity|].
  split; [vm_compute; reflexivity|].
  split; [vm_compute; reflexivity|].
  vm_compute. discriminate.
Qed.

(** C6. An aggregation step looks the device's ModelKey up in the map
    of the manufacturer.  If the key is present with tags [tags], the
    step replaces that entry's tags by [tags ++ [architecture]] and
    leaves the stored key and every other entry as they are; the tag is
    appended whether or not it already occurs in [tags].  If the key is
    absent, the entries after the step are the old ones and a new entry
    for the key whose tag sequence is the single current tag. *)
Theorem aggregation_step `{api : setup_api} `{layout : unordered_layout}
    (architecture : wstring) (inf_device : device_description_line)
    (m : model_data) :
  let key := key_of_device inf_device in
  let m' := aggregate_step architecture inf_device m in
  match tags_of key m with
  | Some tags =>
      (exists found stored,
         m !! found = Some (stored, tags)
         /\ model_key_eqb stored key = true
         /\ m' = <[found := (stored, tags ++ [architecture])]> m)
      /\ tags_of key m' = Some (tags ++ [architecture])
      /\ length m' = length m
  | None =>
      m' ≡ₚ (key, [architecture]) :: m
      /\ tags_of key m' = Some [architecture]
      /\ length m' = S (length m)
  end.
Proof.
  intros key m'. destruct (tags_of key m) as [tags|] eqn:Htags.
  - destruct (aggregate_step_found architecture _ _ _ Htags)
      as (found & stored & Hat & Heq & Hstep & Htags').
    split; [by exists found, stored|]. split; [done|].
    subst m'. by rewrite Hstep, length_insert.
  - destruct (aggregate_step_absent architecture _ _ Htags) as [Hperm Htags'].
    split; [done|]. split; [done|]. subst m'. by rewrite Hperm.
Qed.

Lemma aggregation_step_witness :
  @tags_of ascii_api (key_of_device d1_later)
    (@aggregate_step ascii_api fnv_table (W "") d1_later
       [(key_of_device d1_first, [W ""])])
  = Some [W ""; W ""]
  /\ @tags_of ascii_api (key_of_device d1_later)
       (@aggregate_step ascii_api fnv_table (W "") d1_later [])
     = Some [W ""].
Proof.
  split.
  - apply (@aggregation_step ascii_api fnv_table (W "") d1_later
             [(key_of_device d1_first, [W ""])]).
  - apply (@aggregation_step ascii_api fnv_table (W "") d1_later []).
Defined.

(** C10. In a report that is returned, every model of every
    manufacturer has at least one architecture. *)
Theorem architectures_nonempty `{api : setup_api} `{layout : unordered_layout}
    (inf : inf_file) (r : report) :
  select_report_data inf = Ok r ->
  Forall
    (fun entry =>
       Forall (fun d => 1 <= length (model_architectures d))
         (manufacturer_devices entry))
    r.
Proof.
  intros (ms & _ & Hall)%select_report_data_entries.
  eapply Forall2_Forall_r; [exact Hall|].
  apply Forall_forall. intros im _ entry. apply entry_of_architectures.
Qed.

Lemma architectures_nonempty_witness :
  Forall
    (fun entry =>
       Forall (fun d => 1 <= length (model_architectures d))
         (manufacturer_devices entry))
    [ {| manufacturer_name := "Acme";
         manufacturer_devices :=
           [ {| model_description := "D2";
                model_hardware_ids := [];
                model_architectures := ["ntamd64"%string] |};
             {| model_description := "D1";
                model_hardware_ids := ["HW1"%string];
                model_architectures := [""%string; "ntamd64"%string] |} ] |};
      {| manufacturer_name := "Ghost"; manufacturer_devices := [] |} ].
Proof.
  apply (@architectures_nonempty ascii_api fnv_table acme).
  vm_compute. reflexivity.
Defined.

(** ** Manufacturers in the report *)

Section Manufacturers.
Context {api : setup_api} {layout : unordered_layout}.

Lemma report_entries_lines inf r :
  select_report_data inf = Ok r ->
  exists lines,
    section_lines inf (W "Manufacturer") = Ok lines
    /\ Forall2
         (fun l entry =>
            to_utf8 (line_key l) = Ok (manufacturer_name entry)
            /\ entry_of inf (manufacturer_of_line l) entry)
         lines r.
Proof.
  intros (ms & Hms & Hall)%select_report_data_entries.
  rewrite extract_manufacturers_lines in Hms.
  destruct (section_lines inf (W "Manufacturer")) as [lines|e]; [|done].
  injection Hms as <-. exists lines. split; [done|].
  change (Forall2 (entry_of inf) (manufacturer_of_line <$> lines) r) in Hall.
  rewrite Forall2_fmap_l in Hall.
  eapply Forall2_impl; [exact Hall|]. intros l entry Hentry. split; [|done].
  by destruct Hentry as (t & _ & (Hname & _)%report_entry_Ok).
Qed.






End Manufacturers.

(** C7. In a report that is returned, the manufacturer entries are, in
    order, the lines of the manufacturer section: there are as many
    entries as lines, and the i-th entry is the one built from the i-th
    line and carries its converted key as name. *)
Theorem manufacturer_order `{api : setup_api} `{layout : unordered_layout}
    (inf : inf_file) (r : report) :
  select_report_data inf = Ok r ->
  exists lines,
    section_lines inf (W "Manufacturer") = Ok lines
    /\ Forall2
         (fun l entry =>
            to_utf8 (line_key l) = Ok (manufacturer_name entry)
            /\ entry_of inf (manufacturer_of_line l) entry)
         lines r.
Proof. apply report_entries_lines. Qed.

Lemma manufacturer_order_witness :
  exists lines,
    section_lines acme (W "Manufacturer") = Ok lines
    /\ Forall2
         (fun l entry =>
            @to_utf8 ascii_api (line_key l) = Ok (manufacturer_name entry)
            /\ @entry_of ascii_api fnv_table acme (manufacturer_of_line l) entry)
         lines
         [ {| manufacturer_name := "Acme";
              manufacturer_devices :=
                [ {| model_description := "D2";
                     model_hardware_ids := [];
                     model_architectures := ["ntamd64"%string] |};
                  {| model_description := "D1";
                     model_hardware_ids := ["HW1"%string];
                     model_architectures := [""%string; "ntamd64"%string] |} ] |};
           {| manufacturer_name := "Ghost"; manufacturer_devices := [] |} ].
Proof.
  apply (@manufacturer_order ascii_api fnv_table acme).
  vm_compute. reflexivity.
Defined.




(** ** Failure: a device line without fields *)


Section Failure.
Context {api : setup_api} {layout : unordered_layout}.


Lemma set_emplace_subset name set s :
  s ∈ set_emplace name set -> s ∈ set \/ s = name.
Proof.
  unfold set_emplace. destruct (set_find name set); [by left|].
  rewrite elem_of_app, list_elem_of_singleton. tauto.
Qed.

Lemma extract_sections_enumerated inf s :
  s ∈ extract_sections inf -> s ∈ section_names inf.
Proof.
  unfold extract_sections.
  assert (forall names acc,
            s ∈ fold_left (fun result raw_name => set_emplace raw_name result)
                  names acc ->
            s ∈ acc \/ s ∈ names) as H.
  { induction names as [|n names IH]; intros acc; simpl; [by left|].
    intros [[Hs | ->]%set_emplace_subset | Hs]%IH.
    - by left.
    - right. left.
    - right. by right. }
  intros [Hs | Hs]%H; [by inv Hs | done].
Qed.





End Failure.




(** ** Which declaration a model shows *)

Section Casing.
Context {api : setup_api} {layout : unordered_layout}.

Implicit Types (m : model_data) (key : model_key)
  (t : list (wstring * device_description_line)).

Lemma seen_congr key key' (seen : list model_key) :
  model_key_eqb key' key = true ->
  existsb (fun k => model_key_eqb k key') seen
  = existsb (fun k => model_key_eqb k key) seen.
Proof.
  intros Heq. induction seen as [|k seen IH]; simpl; [done|]. rewrite IH.
  rewrite (model_key_eqb_sym k key'), (model_key_eqb_sym k key).
  by rewrite (model_key_eqb_congr _ _ _ Heq).
Qed.

(** A key of the first-discovery sequence is the key of a declaration
    of the traversal that no earlier declaration equals. *)
Lemma first_discovered_first seen t key :
  key ∈ first_discovered seen t ->
  exists pre a decl post,
    t = pre ++ (a, decl) :: post
    /\ key = key_of_device decl
    /\ Forall (fun x => model_key_eqb (key_of_device (snd x)) key = false) pre
    /\ existsb (fun k => model_key_eqb k key) seen = false.
Proof.
  revert seen. induction t as [|[a d] t IH]; intros seen; simpl; [by inv 1|].
  destruct (existsb (fun k => model_key_eqb k (key_of_device d)) seen) eqn:Hd.
  - intros (pre & a' & decl & post & -> & -> & Hpre & Hseen)%IH.
    exists ((a, d) :: pre), a', decl, post. repeat split; try done.
    constructor; [|done]. simpl. apply not_true_is_false. intros Heq.
    by rewrite (seen_congr _ _ _ Heq), Hseen in Hd.
  - intros Hin. inv Hin.
    + exists [], a, d, t. repeat split; try done.
    + apply IH in H1 as (pre & a' & decl & post & -> & -> & Hpre & Hseen).
      simpl in Hseen. apply orb_false_iff in Hseen as [Hne Hseen].
      exists ((a, d) :: pre), a', decl, post. repeat split; try done.
      by constructor.
Qed.

Lemma present_step key architecture inf_device m :
  existsb (fun k => model_key_eqb k key) (List.map fst m) = true ->
  existsb (fun k => model_key_eqb k key)
    (List.map fst (aggregate_step architecture inf_device m)) = true.
Proof.
  intros H.
  rewrite (existsb_Permutation _ _ _ (aggregate_step_keys architecture inf_device m)).
  destruct (existsb (fun k => model_key_eqb k (key_of_device inf_device))
              (List.map fst m)); [done|].
  simpl. rewrite H. apply orb_true_r.
Qed.

Lemma present_after_step architecture inf_device m :
  existsb (fun k => model_key_eqb k (key_of_device inf_device))
    (List.map fst (aggregate_step architecture inf_device m)) = true.
Proof.
  rewrite (existsb_Permutation _ _ _ (aggregate_step_keys architecture inf_device m)).
  destruct (existsb _ (List.map fst m)) eqn:H; [done|]. simpl.
  by rewrite model_key_eqb_refl.
Qed.

Lemma present_aggregate key t m :
  existsb (fun k => model_key_eqb k key) (List.map fst m) = true ->
  existsb (fun k => model_key_eqb k key) (List.map fst (aggregate t m)) = true.
Proof.
  revert m. induction t as [|x t IH]; intros m H; simpl; [done|].
  apply IH. by apply present_step.
Qed.

Lemma observed_present t m x :
  x ∈ t ->
  existsb (fun k => model_key_eqb k (key_of_device (snd x)))
    (List.map fst (aggregate t m)) = true.
Proof.
  revert m. induction t as [|y t IH]; intros m Hin; [by inv Hin|].
  simpl. inv Hin; [|by apply IH].
  apply present_aggregate, present_after_step.
Qed.

(** A step uses the declaration through its key only. *)
Lemma aggregate_step_key architecture d d' m :
  key_of_device d' = key_of_device d ->
  aggregate_step architecture d' m = aggregate_step architecture d m.
Proof. unfold aggregate_step. by intros ->. Qed.

Lemma aggregate_same_keys t t' m :
  Forall2 (fun x y => fst x = fst y
                      /\ key_of_device (snd x) = key_of_device (snd y)) t t' ->
  aggregate t' m = aggregate t m.
Proof.
  intros H. revert m. induction H as [|[a d] [a' d'] t t' [Ha Hk] _ IH];
    intros m; simpl in *; [done|].
  subst a'. rewrite IH. f_equal. by apply aggregate_step_key.
Qed.

(** Once a key is in the map, a declaration with an equal key is
    aggregated the same way however its description is cased. *)
Lemma aggregate_step_later architecture d d' m :
  model_key_eqb (key_of_device d') (key_of_device d) = true ->
  existsb (fun k => model_key_eqb k (key_of_device d)) (List.map fst m) = true ->
  aggregate_step architecture d' m = aggregate_step architecture d m.
Proof.
  intros Heq Hpresent. unfold aggregate_step.
  rewrite (um_find_congr _ _ m Heq).
  destruct (um_find (key_of_device d) m) eqn:Hfind; [done|].
  apply um_find_None in Hfind. congruence.
Qed.

Lemma aggregate_later pre a d d' post :
  Exists (fun x => model_key_eqb (key_of_device (snd x)) (key_of_device d) = true)
    pre ->
  model_key_eqb (key_of_device d') (key_of_device d) = true ->
  aggregate (pre ++ (a, d') :: post) [] = aggregate (pre ++ (a, d) :: post) [].
Proof.
  intros Hpre Heq. rewrite !aggregate_app. simpl. f_equal.
  apply aggregate_step_later; [done|].
  apply Exists_exists in Hpre as (x & Hx & Hxd).
  rewrite <- (seen_congr _ _ _ Hxd). by apply observed_present.
Qed.

Lemma model_first_declaration inf_manufacturer t entry d :
  report_entry inf_manufacturer (aggregate t []) = Ok entry ->
  d ∈ manufacturer_devices entry ->
  exists pre a decl post,
    t = pre ++ (a, decl) :: post
    /\ Forall (fun x => model_key_eqb (key_of_device (snd x))
                          (key_of_device decl) = false) pre
    /\ to_utf8 (device_description decl) = Ok (model_description d)
    /\ to_utf8_all (device_hardware_ids decl) = Ok (model_hardware_ids d).
Proof.
  intros (_ & Hall)%report_entry_Ok [i Hd]%list_elem_of_lookup_1.
  destruct (Forall2_lookup_r _ _ _ _ _ Hall Hd)
    as ([key tags] & He & (Hdsc & Hids & _)%model_of_entry_Ok).
  simpl in Hdsc, Hids.
  assert (key ∈ first_discovered [] t) as Hkey.
  { rewrite <- aggregate_keys_first_discovered. apply list_elem_of_In.
    apply in_map_iff. exists (key, tags). split; [done|].
    by eapply list_elem_of_In, list_elem_of_lookup_2. }
  apply first_discovered_first in Hkey
    as (pre & a & decl & post & -> & -> & Hpre & _).
  by exists pre, a, decl, post.
Qed.

End Casing.

(** C9. The models of a manufacturer are built from its traversal.
    Every model shows the description and the hardware ids of a
    declaration that no earlier declaration of the traversal equals as a
    ModelKey: it carries the text, letter case included, of the
    first-discovered declaration.  Replacing a later declaration by one
    with an equal ModelKey, for instance the same description in other
    letter case, leaves the entry of the manufacturer as it is; and so
    does changing the install-section reference of any declaration. *)
Theorem first_discovered_casing `{api : setup_api} `{layout : unordered_layout}
    (inf_manufacturer : manufacturer_line)
    (t : list (wstring * device_description_line)) :
  let entry_after t := report_entry inf_manufacturer (aggregate t []) in
  (forall entry d,
     entry_after t = Ok entry -> d ∈ manufacturer_devices entry ->
     exists pre a decl post,
       t = pre ++ (a, decl) :: post
       /\ Forall (fun x => model_key_eqb (key_of_device (snd x))
                             (key_of_device decl) = false) pre
       /\ to_utf8 (device_description decl) = Ok (model_description d)
       /\ to_utf8_all (device_hardware_ids decl) = Ok (model_hardware_ids d))
  /\ (forall pre a decl decl' post,
        t = pre ++ (a, decl) :: post ->
        Exists (fun x => model_key_eqb (key_of_device (snd x))
                           (key_of_device decl) = true) pre ->
        model_key_eqb (key_of_device decl') (key_of_device decl) = true ->
        entry_after (pre ++ (a, decl') :: post) = entry_after t)
  /\ (forall t',
        Forall2 (fun x y => fst x = fst y
                            /\ device_description (snd x) = device_description (snd y)
                            /\ device_hardware_ids (snd x) = device_hardware_ids (snd y))
          t t' ->
        entry_after t' = entry_after t).
Proof.
  intros entry_after. split; [|split].
  - intros entry d Hentry Hd. by apply (model_first_declaration inf_manufacturer t entry).
  - intros pre a decl decl' post -> Hpre Heq. unfold entry_after.
    by rewrite (aggregate_later pre a decl decl' post).
  - intros t' H. unfold entry_after. f_equal. apply aggregate_same_keys.
    eapply Forall2_impl; [exact H|]. intros [a d] [a' d']. simpl.
    intros (-> & Hd & Hh). split; [done|]. unfold key_of_device. by rewrite Hd, Hh.
Qed.

Lemma first_discovered_casing_witness :
  @report_entry ascii_api acme_line
    (@aggregate ascii_api fnv_table
       [(W "", d1_first); (W "ntamd64", d1_recased)] [])
  = @report_entry ascii_api acme_line
      (@aggregate ascii_api fnv_table
         [(W "", d1_first); (W "ntamd64", d1_later)] [])
  /\ @report_entry ascii_api acme_line
       (@aggregate ascii_api fnv_table
          [(W "", d1_first); (W "ntamd64", d1_later)] [])
     = Ok {| manufacturer_name := "Acme";
             manufacturer_devices :=
               [ {| model_description := "D1"%string;
                    model_hardware_ids := ["HW1"%string];
                    model_architectures := [""%string; "ntamd64"%string] |} ] |}.
Proof.
  split; [|reflexivity].
  apply (proj1 (proj2 (@first_discovered_casing ascii_api fnv_table acme_line
                         [(W "", d1_first); (W "ntamd64", d1_later)]))
           [(W "", d1_first)] (W "ntamd64") d1_later d1_recased []).
  - reflexivity.
  - constructor. reflexivity.
  - reflexivity.
Defined.

(** ** The reader, function by function *)

(** [extract_manufacturers] throws only what reading the manufacturer
    section throws.  Otherwise it returns one declaration per line, in
    file order: the name is the key, the base section name is field 0,
    or the name when the line has no field, and the architecture
    qualifiers are the fields after field 0. *)
Theorem extract_manufacturers_result (inf : inf_file) :
  extract_manufacturers inf =
    match section_lines inf (W "Manufacturer") with
    | Throw e => Throw e
    | Ok lines =>
        Ok (List.map
              (fun l =>
                 {| manufacturer_line_name := line_key l;
                    manufacturer_line_models_section_name :=
                      hd (line_key l) (line_fields l);
                    manufacturer_line_architectures := tail (line_fields l) |})
              lines)
    end.
Proof.
  rewrite extract_manufacturers_lines.
  destruct (section_lines inf (W "Manufacturer")) as [lines|e]; simpl; [|done].
  f_equal. apply List.map_ext. intros l. rewrite manufacturer_of_line_fields.
  by destruct (line_fields l).
Qed.

(** [extract_device_descriptions] is all or nothing.  It throws what
    reading the section throws; it throws the missing install section
    as soon as one line of the section has no field, whatever the other
    lines are; otherwise it returns one declaration per line, in file
    order, with field 0 as install section and the later fields as
    hardware ids. *)
Theorem extract_device_descriptions_result (inf : inf_file) (name : wstring) :
  extract_device_descriptions inf name =
    match section_lines inf name with
    | Throw e => Throw e
    | Ok lines =>
        if existsb (fun l => line_size l =? 0) lines
        then Throw missing_install_section
        else Ok (List.map
                   (fun l =>
                      {| device_description := line_key l;
                         install_section := hd [] (line_fields l);
                         device_hardware_ids := tail (line_fields l) |})
                   lines)
    end.
Proof.
  rewrite extract_device_descriptions_lines.
  destruct (section_lines inf name) as [lines|e]; simpl; [|done].
  replace (forallb (fun l => negb (line_size l =? 0)) lines)
    with (negb (existsb (fun l => line_size l =? 0) lines)).
  - by destruct (existsb _ lines).
  - induction lines as [|l lines IH]; simpl; [done|].
    by rewrite negb_orb, IH.
Qed.

Section SectionCatalog.
Context {api : setup_api}.

Lemma ci_eqb_normal_form (l r : wstring) :
  ci_eqb l r = true <-> name_normal_form l = name_normal_form r.
Proof. apply ci_eqb_equal. Qed.

Lemma set_find_None_normal name set :
  set_find name set = None ->
  name_normal_form name ∉ name_normal_form <$> set.
Proof.
  intros Hfind (stored & Heq & Hin)%list_elem_of_fmap.
  apply list_elem_of_In in Hin.
  pose proof (find_none _ _ Hfind stored Hin) as Hne. simpl in Hne.
  symmetry in Heq. apply ci_eqb_normal_form in Heq. congruence.
Qed.

Lemma section_exists_app name set1 set2 :
  section_exists name (set1 ++ set2)
  = section_exists name set1 || section_exists name set2.
Proof. apply existsb_app. Qed.

Lemma section_exists_emplace name raw set :
  section_exists name (set_emplace raw set)
  = section_exists name set || ci_eqb raw name.
Proof.
  unfold set_emplace. destruct (set_find raw set) as [stored|] eqn:Hfind.
  - destruct (ci_eqb raw name) eqn:Hraw; [|by rewrite orb_false_r].
    rewrite orb_true_r.
    destruct (set_find_Some _ _ _ Hfind) as (Heq & Hin & _).
    apply existsb_exists. exists stored. split; [by apply list_elem_of_In|].
    apply ci_eqb_equal. apply ci_eqb_equal in Hraw.
    unfold ci_equal in *. congruence.
  - rewrite section_exists_app. simpl. by rewrite orb_false_r.
Qed.

Lemma emplace_all names acc name :
  section_exists name
    (fold_left (fun result raw_name => set_emplace raw_name result) names acc)
  = section_exists name acc || existsb (fun raw => ci_eqb raw name) names.
Proof.
  revert acc. induction names as [|raw names IH]; intros acc; simpl.
  - by rewrite orb_false_r.
  - by rewrite IH, section_exists_emplace, orb_assoc.
Qed.

Lemma emplace_all_NoDup names acc :
  NoDup (name_normal_form <$> acc) ->
  NoDup (name_normal_form <$>
           fold_left (fun result raw_name => set_emplace raw_name result) names acc).
Proof.
  revert acc. induction names as [|raw names IH]; intros acc Hacc; simpl; [done|].
  apply IH. unfold set_emplace.
  destruct (set_find raw acc) as [stored|] eqn:Hfind; [done|].
  rewrite fmap_app. simpl. apply NoDup_app. split; [done|]. split.
  - intros x Hx Hin. apply list_elem_of_singleton in Hin. subst x.
    by apply (set_find_None_normal _ _ Hfind).
  - apply NoDup_singleton.
Qed.

Lemma extract_sections_catalog inf :
  (forall name,
     section_exists name (extract_sections inf)
     = existsb (fun raw => ci_eqb raw name) (section_names inf))
  /\ NoDup (name_normal_form <$> extract_sections inf)
  /\ (forall stored, stored ∈ extract_sections inf -> stored ∈ section_names inf).
Proof.
  split; [|split].
  - intros name. unfold extract_sections. by rewrite emplace_all.
  - apply emplace_all_NoDup. constructor.
  - apply extract_sections_enumerated.
Qed.

End SectionCatalog.

(** [extract_sections] builds a set of section names: a name exists in
    it exactly when the reader enumerates a name equal to it as section
    names go; no two stored names are equal as section names, however
    often and in whatever letter case the reader enumerates a section;
    and every stored name is one of the enumerated names. *)
Theorem extract_sections_is_a_set `{api : setup_api} (inf : inf_file) :
  (forall name,
     section_exists name (extract_sections inf)
     = existsb (fun raw => ci_eqb raw name) (section_names inf))
  /\ NoDup (name_normal_form <$> extract_sections inf)
  /\ (forall stored, stored ∈ extract_sections inf -> stored ∈ section_names inf).
Proof. apply extract_sections_catalog. Qed.

Lemma extract_sections_is_a_set_witness :
  W "Acme" ∈ section_names acme.
Proof.
  apply (proj2 (proj2 (@extract_sections_is_a_set ascii_api acme))).
  vm_compute. repeat constructor.
Defined.

(** ** ModelKey as a hash-map key *)

(** [operator==] of [model_key] is an equivalence relation: reflexive,
    symmetric and transitive, as the key equality of a hash map must
    be. *)
Theorem model_key_equality_is_equivalence `{api : setup_api}
    (k1 k2 k3 : model_key) :
  model_key_eqb k1 k1 = true
  /\ model_key_eqb k1 k2 = model_key_eqb k2 k1
  /\ (model_key_eqb k1 k2 = true -> model_key_eqb k2 k3 = true ->
      model_key_eqb k1 k3 = true).
Proof.
  split; [apply model_key_eqb_refl|]. split; [apply model_key_eqb_sym|].
  apply model_key_eqb_trans.
Qed.

Lemma model_key_equality_is_equivalence_witness :
  @model_key_eqb ascii_api (key_of_device d1_first) (key_of_device d1_recased) = true.
Proof.
  apply (@model_key_equality_is_equivalence ascii_api
           (key_of_device d1_first) (key_of_device d1_later)
           (key_of_device d1_recased)); reflexivity.
Defined.

Lemma model_key_eqb_normal_form `{api : setup_api} (k1 k2 : model_key) :
  model_key_eqb k1 k2 = true <-> key_normal_form k1 = key_normal_form k2.
Proof.
  rewrite model_key_eqb_spec. unfold key_normal_form, ci_equal.
  split; [by intros [-> ->] | by intros [= -> ->]].
Qed.

(** [std::hash<model_key>] agrees with [operator==]: whenever the hash
    of the description does not depend on letter case, equal keys have
    equal hashes, so a lookup searches the bucket the key was stored
    in. *)
Theorem hash_respects_equality `{api : setup_api}
    (hash_key_name : key_name -> Z) (hasher : wstring -> Z)
    (k1 k2 : model_key) :
  (forall a b, ci_equal a b -> hash_key_name a = hash_key_name b) ->
  model_key_eqb k1 k2 = true ->
  hash_model_key hash_key_name hasher k1 = hash_model_key hash_key_name hasher k2.
Proof.
  intros Hname [Hd Hh]%model_key_eqb_spec. unfold hash_model_key.
  by rewrite Hh, (Hname _ _ Hd).
Qed.

Lemma hash_respects_equality_witness :
  hash_model_key (fun d => fnv1a (List.map ascii_fold d)) fnv1a
    (key_of_device d1_first)
  = hash_model_key (fun d => fnv1a (List.map ascii_fold d)) fnv1a
      (key_of_device d1_later).
Proof.
  apply (@hash_respects_equality ascii_api).
  - intros a b Hab. unfold ci_equal in Hab. simpl in Hab. by rewrite Hab.
  - reflexivity.
Defined.

(** ** More on the Section Correlator *)

Section CorrelatorFacts.
Context {api : setup_api}.

Lemma set_find_congr name name' set :
  ci_equal name name' -> set_find name set = set_find name' set.
Proof.
  intros Heq. unfold set_find. induction set as [|stored set IH]; simpl; [done|].
  rewrite IH. replace (ci_eqb stored name') with (ci_eqb stored name); [done|].
  apply eq_true_iff_eq. rewrite !ci_eqb_equal. unfold ci_equal in *.
  split; congruence.
Qed.

Lemma ci_equal_app a a' b : ci_equal a a' -> ci_equal (a ++ b) (a' ++ b).
Proof. unfold ci_equal. intros H. by rewrite !List.map_app, H. Qed.

Lemma correlate_base_case manufacturer manufacturer' all_sections :
  ci_equal (manufacturer_line_models_section_name manufacturer)
    (manufacturer_line_models_section_name manufacturer') ->
  manufacturer_line_architectures manufacturer
  = manufacturer_line_architectures manufacturer' ->
  correlate_models_sections manufacturer all_sections
  = correlate_models_sections manufacturer' all_sections.
Proof.
  intros Hbase Harch. unfold correlate_models_sections.
  rewrite <- Harch, (set_find_congr _ _ _ Hbase). f_equal.
  apply flat_map_ext. intros architecture.
  by rewrite (set_find_congr _ _ all_sections (ci_equal_app _ _ _ Hbase)).
Qed.

Lemma correlate_tags_sublist manufacturer all_sections :
  List.map correlation_architecture
    (correlate_models_sections manufacturer all_sections)
  `sublist_of` [] :: manufacturer_line_architectures manufacturer.
Proof.
  unfold correlate_models_sections. rewrite List.map_app.
  change ([] :: manufacturer_line_architectures manufacturer)
    with ([ [] ] ++ manufacturer_line_architectures manufacturer).
  apply sublist_app.
  - destruct (set_find _ all_sections); simpl; [done|]. by apply sublist_cons.
  - induction (manufacturer_line_architectures manufacturer) as [|q qs IH];
      simpl; [done|].
    rewrite List.map_app. change (q :: qs) with ([q] ++ qs).
    apply sublist_app; [|done].
    destruct (set_find _ all_sections); simpl; [done|]. by apply sublist_cons.
Qed.

End CorrelatorFacts.

(** The Correlator looks sections up as section names: two manufacturer
    lines whose base section names differ in letter case only, with the
    same qualifiers, have the same correlations. *)
Theorem correlator_ignores_base_case `{api : setup_api}
    (manufacturer manufacturer' : manufacturer_line)
    (all_sections : list section_name) :
  ci_equal (manufacturer_line_models_section_name manufacturer)
    (manufacturer_line_models_section_name manufacturer') ->
  manufacturer_line_architectures manufacturer
  = manufacturer_line_architectures manufacturer' ->
  correlate_models_sections manufacturer all_sections
  = correlate_models_sections manufacturer' all_sections.
Proof. apply correlate_base_case. Qed.

Lemma correlator_ignores_base_case_witness :
  @correlate_models_sections ascii_api
    (manufacturer_of_line (L "Acme" ["ACME"; "ntamd64"]))
    (@extract_sections ascii_api acme)
  = @correlate_models_sections ascii_api
      (manufacturer_of_line (L "Acme" ["acme"; "ntamd64"]))
      (@extract_sections ascii_api acme).
Proof.
  apply (@correlator_ignores_base_case ascii_api); reflexivity.
Defined.

(** The architecture tags the Correlator yields are taken, in order and
    each declared qualifier at most once, from the empty tag followed by
    the declared qualifiers; so it never yields more than one
    correlation more than there are qualifiers. *)
Theorem correlator_tags_in_declared_order `{api : setup_api}
    (manufacturer : manufacturer_line) (all_sections : list section_name) :
  List.map correlation_architecture
    (correlate_models_sections manufacturer all_sections)
  `sublist_of` [] :: manufacturer_line_architectures manufacturer
  /\ length (correlate_models_sections manufacturer all_sections)
     <= S (length (manufacturer_line_architectures manufacturer)).
Proof.
  pose proof (correlate_tags_sublist manufacturer all_sections) as H.
  split; [done|]. apply sublist_length in H.
  by rewrite length_map in H.
Qed.

(** ** The architectures of a model *)

Lemma filter_none {A} (f : A -> bool) (l : list A) :
  (forall x, x ∈ l -> f x = false) -> List.filter f l = [].
Proof.
  induction l as [|y l IH]; intros H; simpl; [done|].
  rewrite (H y) by left. apply IH. intros x Hx. apply H. by right.
Qed.

Lemma map_injective {A B} (f : A -> B) (l l' : list A) :
  (forall x y, f x = f y -> x = y) -> List.map f l = List.map f l' -> l = l'.
Proof.
  intros Hf. revert l'. induction l as [|x l IH]; intros [|y l']; simpl; try done.
  intros [= Hxy Hl]. f_equal; [by apply Hf | by apply IH].
Qed.

Section Tags.
Context {api : setup_api} {layout : unordered_layout}.

Implicit Types (m : model_data) (key : model_key)
  (t : list (wstring * device_description_line)).

Lemma first_discovered_NoDup seen t :
  NoDup (key_normal_form <$> first_discovered seen t).
Proof.
  revert seen. induction t as [|[a d] t IH]; intros seen; simpl; [constructor|].
  destruct (existsb _ seen); [apply IH|].
  rewrite fmap_cons. apply NoDup_cons. split; [|apply IH].
  intros (k & Hk & Hin)%list_elem_of_fmap.
  apply first_discovered_first in Hin as (_ & _ & _ & _ & _ & _ & _ & Hseen).
  simpl in Hseen. apply orb_false_iff in Hseen as [Hne _].
  symmetry in Hk. apply model_key_eqb_normal_form in Hk.
  rewrite model_key_eqb_sym in Hk. congruence.
Qed.

Lemma aggregate_NoDup t :
  NoDup (key_normal_form <$> List.map fst (aggregate t [])).
Proof.
  rewrite aggregate_keys_first_discovered. apply first_discovered_NoDup.
Qed.

Lemma observed_tags_snoc key t a d :
  observed_tags key (t ++ [(a, d)])
  = observed_tags key t
    ++ (if model_key_eqb (key_of_device d) key then [a] else []).
Proof.
  unfold observed_tags. rewrite List.filter_app, List.map_app. simpl.
  by destruct (model_key_eqb (key_of_device d) key).
Qed.

Lemma observed_tags_congr key key' t :
  model_key_eqb key' key = true -> observed_tags key' t = observed_tags key t.
Proof.
  intros Heq. unfold observed_tags. f_equal. apply List.filter_ext.
  intros x. rewrite (model_key_eqb_sym _ key'), (model_key_eqb_sym _ key).
  by apply model_key_eqb_congr.
Qed.

Lemma observed_tags_none key t :
  existsb (fun k => model_key_eqb k key) (List.map fst (aggregate t [])) = false ->
  observed_tags key t = [].
Proof.
  intros Habsent. unfold observed_tags. rewrite filter_none; [done|].
  intros x Hx. apply not_true_is_false. intros Heq.
  pose proof (observed_present t [] x Hx) as Hpresent.
  by rewrite (seen_congr _ _ _ Heq), Habsent in Hpresent.
Qed.

Lemma absent_key_differs key m e :
  existsb (fun k => model_key_eqb k key) (List.map fst m) = false ->
  e ∈ m -> model_key_eqb key (fst e) = false.
Proof.
  intros Habsent He. apply not_true_is_false. intros Heq.
  rewrite model_key_eqb_sym in Heq.
  assert (existsb (fun k => model_key_eqb k key) (List.map fst m) = true);
    [|congruence].
  apply existsb_exists. exists (fst e). split; [|done].
  apply in_map, list_elem_of_In, He.
Qed.

(** Every entry of the map holds the tags observed for its key. *)
Lemma aggregate_entries t e :
  e ∈ aggregate t [] -> snd e = observed_tags (fst e) t.
Proof.
  revert e. induction t as [|[a d] t IH] using rev_ind; intros e; [by inv 1|].
  rewrite aggregate_app. simpl. set (m := aggregate t []) in *.
  unfold aggregate_step. rewrite observed_tags_snoc.
  destruct (um_find (key_of_device d) m) as [found|] eqn:Hfind.
  - destruct (um_find_Some _ _ _ Hfind) as (stored & tags & Hat & Heq & _).
    rewrite (alter_append_tag _ _ _ _ _ Hat).
    intros [j Hj]%list_elem_of_lookup_1.
    destruct (decide (found = j)) as [<-|Hne].
    + rewrite list_lookup_insert_eq in Hj by (by eapply lookup_lt_Some).
      injection Hj as <-. simpl. rewrite model_key_eqb_sym, Heq.
      f_equal. apply (IH (stored, tags)). by eapply list_elem_of_lookup_2.
    + rewrite list_lookup_insert_ne in Hj by done.
      rewrite (IH e) by (by eapply list_elem_of_lookup_2).
      destruct (model_key_eqb (key_of_device d) (fst e)) eqn:Hd;
        [|by rewrite app_nil_r].
      exfalso. apply Hne.
      apply (NoDup_lookup _ found j (key_normal_form stored) (aggregate_NoDup t)).
      * fold m. by rewrite !list_lookup_fmap, Hat.
      * fold m. rewrite !list_lookup_fmap, Hj. simpl. f_equal.
        apply model_key_eqb_normal_form.
        rewrite model_key_eqb_sym. by eapply model_key_eqb_trans.
  - apply um_find_None in Hfind. rewrite um_insert_perm. intros He. inv He.
    + simpl. rewrite model_key_eqb_refl. fold m in Hfind.
      by rewrite (observed_tags_none _ _ Hfind).
    + rewrite (absent_key_differs _ _ _ Hfind H1), app_nil_r. by apply IH.
Qed.

Lemma aggregate_lookup key t :
  tags_of key (aggregate t [])
  = match observed_tags key t with
    | [] => None
    | tags => Some tags
    end.
Proof.
  unfold tags_of.
  destruct (List.find _ (aggregate t [])) as [[stored tags]|] eqn:Hfind; simpl.
  - destruct (find_some _ _ Hfind) as [Hin Heq]. simpl in Heq.
    apply list_elem_of_In in Hin.
    pose proof (aggregate_entries t _ Hin) as Htags. simpl in Htags.
    rewrite (observed_tags_congr _ _ t Heq) in Htags. rewrite <- Htags.
    pose proof (aggregate_tags t [] (Forall_nil_2 _)) as Hne.
    rewrite Forall_forall in Hne. specialize (Hne _ Hin). simpl in Hne.
    by destruct tags.
  - rewrite observed_tags_none; [done|].
    apply um_find_None, um_find_None_find, Hfind.
Qed.

Lemma aggregate_by_key t :
  aggregate t []
  = List.map (fun key => (key, observed_tags key t))
      (List.map fst (aggregate t [])).
Proof.
  rewrite List.map_map. rewrite <- (List.map_id (aggregate t [])) at 1.
  apply List.map_ext_in. intros [key tags] Hin. simpl.
  apply list_elem_of_In in Hin.
  pose proof (aggregate_entries t _ Hin) as Htags. simpl in Htags. by subst tags.
Qed.

Lemma aggregate_models t :
  List.map model_of_entry (aggregate t [])
  ≡ₚ List.map (model_of_key t) (first_discovered [] t).
Proof.
  rewrite aggregate_by_key at 1. rewrite List.map_map.
  apply Permutation_map, aggregate_keys_first_discovered.
Qed.

End Tags.

(** After a traversal, looking a key up in the map gives the tags of
    all the declarations of the traversal with an equal key, one tag per
    declaration, in traversal order and with repetitions; a key that no
    declaration has is not in the map. *)
Theorem aggregated_tags `{api : setup_api} `{layout : unordered_layout}
    (key : model_key) (t : list (wstring * device_description_line)) :
  tags_of key (aggregate t [])
  = match observed_tags key t with
    | [] => None
    | tags => Some tags
    end.
Proof. apply aggregate_lookup. Qed.

(** In a report that is returned, the entry of a manufacturer carries
    its converted name, and its [devices] are, in some order, one model
    for each key of the first-discovery sequence of its traversal: the
    converted description and hardware ids as first discovered, and as
    architectures the converted tags of all declarations with that key,
    in traversal order. *)
Theorem report_models `{api : setup_api} `{layout : unordered_layout}
    (inf : inf_file) (r : report) :
  select_report_data inf = Ok r ->
  exists manufacturers,
    extract_manufacturers inf = Ok manufacturers
    /\ Forall2
         (fun inf_manufacturer entry =>
            to_utf8 (manufacturer_line_name inf_manufacturer)
            = Ok (manufacturer_name entry)
            /\ exists t,
                 traversal inf (extract_sections inf) inf_manufacturer = Ok t
                 /\ List.map Ok (manufacturer_devices entry)
                    ≡ₚ List.map (model_of_key t) (first_discovered [] t))
         manufacturers r.
Proof.
  intros (ms & Hms & Hall)%select_report_data_entries.
  exists ms. split; [done|].
  eapply Forall2_impl; [exact Hall|].
  intros im entry (t & Ht & (Hname & Hdevices)%report_entry_Ok).
  split; [done|]. exists t. split; [done|].
  rewrite <- aggregate_models. symmetry.
  erewrite Forall2_map_eq; [reflexivity|]. exact Hdevices.
Qed.

Lemma report_models_witness :
  exists manufacturers,
    extract_manufacturers acme = Ok manufacturers
    /\ Forall2
         (fun inf_manufacturer entry =>
            @to_utf8 ascii_api (manufacturer_line_name inf_manufacturer)
            = Ok (manufacturer_name entry)
            /\ exists t,
                 @traversal ascii_api acme (@extract_sections ascii_api acme)
                   inf_manufacturer = Ok t
                 /\ List.map Ok (manufacturer_devices entry)
                    ≡ₚ List.map (@model_of_key ascii_api t)
                         (@first_discovered ascii_api [] t))
         manufacturers
         [ {| manufacturer_name := "Acme";
              manufacturer_devices :=
                [ {| model_description := "D2";
                     model_hardware_ids := [];
                     model_architectures := ["ntamd64"%string] |};
                  {| model_description := "D1";
                     model_hardware_ids := ["HW1"%string];
                     model_architectures := [""%string; "ntamd64"%string] |} ] |};
           {| manufacturer_name := "Ghost"; manufacturer_devices := [] |} ].
Proof.
  apply (@report_models ascii_api fnv_table acme).
  vm_compute. reflexivity.
Defined.

(** ** When a report is returned *)

Section Success.
Context {api : setup_api} {layout : unordered_layout}.








End Success.





(** ** The layout of the hash map and the report *)

Lemma for_range_push_Throw {A B} (f : A -> result B) (l : list A)
    (acc : list B) e :
  for_range l (fun x out => y ← f x; Ok (out ++ [y])) acc = Throw e ->
  exists x, x ∈ l /\ f x = Throw e.
Proof.
  revert acc. induction l as [|x l IH]; intros acc; simpl; [done|].
  destruct (f x) as [y|e'] eqn:Hx; simpl.
  - intros (x' & Hin & Hx')%IH. exists x'. split; [by right | done].
  - intros [= <-]. exists x. split; [left | done].
Qed.

Lemma Forall2_Permutation_l {A B} (P : A -> B -> Prop) (l l' : list A)
    (k : list B) :
  l ≡ₚ l' -> Forall2 P l k -> exists k', k ≡ₚ k' /\ Forall2 P l' k'.
Proof.
  intros Hp. revert k. induction Hp as [|x l l' _ IH|x y l|l l' l'' _ IH1 _ IH2];
    intros k Hk.
  - inv Hk. by exists [].
  - inv Hk. destruct (IH _ H3) as (k' & Hk' & Hall).
    exists (y :: k'). split; [by constructor | by constructor].
  - inv Hk. inv H3. exists (y1 :: y0 :: l'0).
    split; [apply Permutation_swap | by repeat constructor].
  - destruct (IH1 _ Hk) as (k' & Hk' & Hall').
    destruct (IH2 _ Hall') as (k'' & Hk'' & Hall'').
    exists k''. split; [by etrans | done].
Qed.

Section Layouts.
Context {api : setup_api} (layout1 layout2 : unordered_layout).

Lemma to_utf8_all_Throw range e :
  to_utf8_all range = Throw e -> conversion_throws e.
Proof. intros (s & _ & Hs)%for_range_push_Throw. by exists s. Qed.

Lemma model_of_entry_Throw entry e :
  model_of_entry entry = Throw e -> conversion_throws e.
Proof.
  unfold model_of_entry.
  destruct (to_utf8 (description (fst entry))) as [dsc|e'] eqn:Hd; simpl;
    [|intros [= <-]; by eexists].
  destruct (to_utf8_all (hardware_ids (fst entry))) as [ids|e'] eqn:Hh; simpl;
    [|intros [= <-]; by eapply to_utf8_all_Throw].
  destruct (to_utf8_all (snd entry)) as [tags|e'] eqn:Ha; simpl; [done|].
  intros [= <-]. by eapply to_utf8_all_Throw.
Qed.

Lemma devices_loop_layouts (m1 m2 : model_data) devices1 :
  m1 ≡ₚ m2 ->
  for_range m1
    (fun entry devices => model ← model_of_entry entry; Ok (devices ++ [model]))
    [] = Ok devices1 ->
  exists devices2,
    devices1 ≡ₚ devices2
    /\ for_range m2
         (fun entry devices => model ← model_of_entry entry; Ok (devices ++ [model]))
         [] = Ok devices2.
Proof.
  intros Hp Hloop%for_range_push_all.
  destruct (Forall2_Permutation_l _ _ _ _ Hp Hloop) as (devices2 & Hd & Hall).
  exists devices2. split; [done|]. by apply for_range_push_all.
Qed.

Lemma report_entry_layouts im (m1 m2 : model_data) :
  m1 ≡ₚ m2 -> same_entry_outcome (report_entry im m1) (report_entry im m2).
Proof.
  intros Hp. unfold report_entry.
  destruct (to_utf8 (manufacturer_line_name im)) as [name|e]; simpl;
    [|by left].
  destruct (for_range m1 _ []) as [devices1|e1] eqn:H1;
    destruct (for_range m2 _ []) as [devices2|e2] eqn:H2; simpl.
  - split; [done|].
    destruct (devices_loop_layouts _ _ _ Hp H1) as (devices2' & Hd & H2').
    congruence.
  - destruct (devices_loop_layouts _ _ _ Hp H1) as (devices2' & _ & H2').
    congruence.
  - symmetry in Hp.
    destruct (devices_loop_layouts _ _ _ Hp H2) as (devices1' & _ & H1').
    congruence.
  - right. split.
    + apply for_range_push_Throw in H1 as (x & _ & Hx).
      by eapply model_of_entry_Throw.
    + apply for_range_push_Throw in H2 as (x & _ & Hx).
      by eapply model_of_entry_Throw.
Qed.

Lemma aggregate_layouts t :
  @aggregate api layout1 t [] ≡ₚ @aggregate api layout2 t [].
Proof.
  rewrite (@aggregate_by_key api layout1 t), (@aggregate_by_key api layout2 t).
  apply Permutation_map.
  by rewrite (@aggregate_keys_first_discovered api layout1),
             (@aggregate_keys_first_discovered api layout2).
Qed.

Lemma assemble_layouts inf manufacturers (output1 output2 : report) :
  same_up_to_device_order output1 output2 ->
  match
    for_range manufacturers
      (fun inf_manufacturer output =>
         m ← @collect_models api layout1 inf (extract_sections inf) inf_manufacturer;
         entry ← report_entry inf_manufacturer m;
         Ok (output ++ [entry]))
      output1,
    for_range manufacturers
      (fun inf_manufacturer output =>
         m ← @collect_models api layout2 inf (extract_sections inf) inf_manufacturer;
         entry ← report_entry inf_manufacturer m;
         Ok (output ++ [entry]))
      output2
  with
  | Ok r1, Ok r2 => same_up_to_device_order r1 r2
  | Throw e1, Throw e2 =>
      e1 = e2 \/ (conversion_throws e1 /\ conversion_throws e2)
  | _, _ => False
  end.
Proof.
  revert output1 output2.
  induction manufacturers as [|im ms IH]; intros output1 output2 Hout; simpl;
    [done|].
  rewrite !collect_models_traversal.
  destruct (traversal inf (extract_sections inf) im) as [t|e]; simpl; [|by left].
  pose proof (report_entry_layouts im _ _ (aggregate_layouts t)) as Hentry.
  destruct (report_entry im (@aggregate api layout1 t [])) as [entry1|e1];
    destruct (report_entry im (@aggregate api layout2 t [])) as [entry2|e2];
    simpl in *; try done.
  apply IH. apply Forall2_app; [done|]. by constructor.
Qed.

End Layouts.

(** The layout of the unordered map decides nothing but the order of
    the models within a manufacturer, and the order in which their texts
    are converted.  Under any two layouts, [select_report_data] either
    returns reports with the same manufacturers in the same order and,
    for each of them, the same models up to their order, or throws
    under both; the two exceptions are the same unless both are
    exceptions of a text conversion. *)
Theorem layout_changes_device_order_only `{api : setup_api}
    (layout1 layout2 : unordered_layout) (inf : inf_file) :
  match @select_report_data api layout1 inf, @select_report_data api layout2 inf with
  | Ok r1, Ok r2 =>
      Forall2
        (fun entry1 entry2 =>
           manufacturer_name entry1 = manufacturer_name entry2
           /\ manufacturer_devices entry1 ≡ₚ manufacturer_devices entry2)
        r1 r2
  | Throw e1, Throw e2 =>
      e1 = e2
      \/ ((exists s, to_utf8 s = Throw e1) /\ (exists s, to_utf8 s = Throw e2))
  | _, _ => False
  end.
Proof.
  unfold select_report_data.
  destruct (extract_manufacturers inf) as [ms|e]; simpl; [|by left].
  apply (assemble_layouts layout1 layout2 inf ms [] []). constructor.
Qed.

(** ** main.cpp and json.h *)

Section Serialization.

Lemma model_to_json_inj m m' : model_to_json m = model_to_json m' -> m = m'.
Proof.
  destruct m, m'. unfold model_to_json. simpl.
  intros [= -> Hh Ha].
  apply map_injective in Hh; [|by intros x y [= ->]].
  apply map_injective in Ha; [|by intros x y [= ->]].
  by subst.
Qed.

Lemma manufacturer_to_json_inj m m' :
  manufacturer_to_json m = manufacturer_to_json m' -> m = m'.
Proof.
  destruct m, m'. unfold manufacturer_to_json. simpl. intros [= -> Hd].
  f_equal. revert Hd. apply map_injective. apply model_to_json_inj.
Qed.

Lemma report_to_json_inj (r r' : report) :
  report_to_json r = report_to_json r' -> r = r'.
Proof.
  unfold report_to_json. intros [= H]. revert H. apply map_injective.
  apply manufacturer_to_json_inj.
Qed.

End Serialization.

(** The serialization of json.h loses nothing: reports with the same
    JSON value are the same report, manufacturer by manufacturer and
    model by model, in the same order. *)
Theorem report_to_json_injective (r r' : report) :
  report_to_json r = report_to_json r' -> r = r'.
Proof. apply report_to_json_inj. Qed.

Lemma report_to_json_injective_witness :
  [ {| manufacturer_name := "Ghost"; manufacturer_devices := [] |} ]
  = [ {| manufacturer_name := "Ghost"; manufacturer_devices := [] |} ].
Proof.
  apply (report_to_json_injective
           [ {| manufacturer_name := "Ghost"; manufacturer_devices := [] |} ]
           [ {| manufacturer_name := "Ghost"; manufacturer_devices := [] |} ]).
  reflexivity.
Defined.

Section Process.
Context {api : setup_api} {layout : unordered_layout}.

Lemma main_with_code_cases (open_inf : wstring -> result inf_file)
    (argv : list wstring) :
  (length argv < 2
   /\ main_with_code open_inf argv
      = {| run_exit := invalid_arguments; run_cout := None;
           run_cerr := Some usage_text |})
  \/ (2 <= length argv
      /\ exists outcome,
           (file ← open_inf (nth 1 argv []); select_report_data file) = outcome
           /\ match outcome with
              | Ok r =>
                  main_with_code open_inf argv
                  = {| run_exit := success; run_cout := Some (report_to_json r);
                       run_cerr := None |}
              | Throw e =>
                  run_cout (main_with_code open_inf argv) = None
                  /\ run_exit (main_with_code open_inf argv)
                     = match e with
                       | bad_alloc => out_of_memory
                       | std_exception _ => error
                       | unknown_exception => unspecified_error
                       end
              end).
Proof.
  unfold main_with_code.
  destruct (Nat.ltb_spec (length argv) 2) as [Hlt|Hge]; [by left|].
  right. split; [done|]. eexists. split; [reflexivity|].
  destruct (file ← open_inf (nth 1 argv []); select_report_data file) as [r|[]];
    done.
Qed.

End Process.

(** [main_with_code] writes a report to the standard output exactly
    when it exits with success, and then the report is the one
    [select_report_data] returned for the document opened from
    [argv[1]]; it never writes to both the standard output and the
    standard error; and [wmain] returns 0 exactly in that case, and a
    value from 1 to 4 otherwise. *)
Theorem main_with_code_outputs `{api : setup_api} `{layout : unordered_layout}
    (open_inf : wstring -> result inf_file) (argv : list wstring) :
  (run_exit (main_with_code open_inf argv) = success
   <-> exists r, run_cout (main_with_code open_inf argv) = Some (report_to_json r))
  /\ (forall j, run_cout (main_with_code open_inf argv) = Some j ->
        exists file r,
          2 <= length argv
          /\ open_inf (nth 1 argv []) = Ok file
          /\ select_report_data file = Ok r
          /\ j = report_to_json r)
  /\ (run_cout (main_with_code open_inf argv) = None
      \/ run_cerr (main_with_code open_inf argv) = None)
  /\ (wmain open_inf argv = 0
      <-> run_exit (main_with_code open_inf argv) = success)%Z
  /\ (0 <= wmain open_inf argv <= 4)%Z.
Proof.
  unfold wmain.
  destruct (main_with_code_cases open_inf argv)
    as [[Hlt ->] | (Hge & outcome & Hout & Hrun)]; simpl.
  - repeat split; try done; try lia; try (by intros [? ?]). by left.
  - destruct outcome as [r|e].
    + rewrite Hrun. simpl.
      repeat split; try done; try lia; eauto; try (by right).
      intros j [= <-].
      destruct (open_inf (nth 1 argv [])) as [file|e]; simpl in Hout; [|done].
      by exists file, r.
    + destruct Hrun as [-> Hexit]. rewrite Hexit.
      repeat split; try done; try (by intros [? ?]); try (by left);
        destruct e; simpl; try done; lia.
Qed.

Lemma main_with_code_outputs_witness :
  exists file r,
    2 <= length [W "inf_to_json"; W "acme.inf"]
    /\ (fun _ : wstring => Ok acme) (nth 1 [W "inf_to_json"; W "acme.inf"] [])
       = Ok file
    /\ @select_report_data ascii_api fnv_table file = Ok r
    /\ json_array
         [ json_object
             [ ("name"%string, json_string "Acme");
               ("devices"%string,
                json_array
                  [ json_object
                      [ ("description"%string, json_string "D2");
                        ("hardware_ids"%string, json_array []);
                        ("architectures"%string,
                         json_array [json_string "ntamd64"]) ];
                    json_object
                      [ ("description"%string, json_string "D1");
                        ("hardware_ids"%string, json_array [json_string "HW1"]);
                        ("architectures"%string,
                         json_array [json_string ""; json_string "ntamd64"]) ] ]) ];
           json_object
             [ ("name"%string, json_string "Ghost");
               ("devices"%string, json_array []) ] ]
       = report_to_json r.
Proof.
  apply (proj1 (proj2 (@main_with_code_outputs ascii_api fnv_table
                         (fun _ => Ok acme) [W "inf_to_json"; W "acme.inf"]))).
  vm_compute. reflexivity.
Defined.

(** ** What aggregation keeps *)

Section Conservation.
Context {api : setup_api} {layout : unordered_layout}.

Implicit Types (m : model_data) (key : model_key)
  (t : list (wstring * device_description_line)).

Lemma append_tag_total key m found architecture :
  um_find key m = Some found ->
  sum_list_with (fun entry => length (snd entry))
    (alter (fun entry => (fst entry, snd entry ++ [architecture])) found m)
  = S (sum_list_with (fun entry => length (snd entry)) m).
Proof.
  revert found. induction m as [|e m IH]; intros found; simpl; [done|].
  destruct (model_key_eqb (fst e) key).
  - intros [= <-]. simpl. rewrite length_app. simpl. lia.
  - destruct (um_find key m) as [i|]; simpl; [|done].
    intros [= <-]. simpl. pose proof (IH i eq_refl) as Hi.
    unfold alter in Hi. rewrite Hi. lia.
Qed.

Lemma aggregate_step_total architecture inf_device m :
  sum_list_with (fun entry => length (snd entry))
    (aggregate_step architecture inf_device m)
  = S (sum_list_with (fun entry => length (snd entry)) m).
Proof.
  unfold aggregate_step.
  destruct (um_find (key_of_device inf_device) m) as [found|] eqn:Hfind.
  - by apply append_tag_total with (key_of_device inf_device).
  - by rewrite um_insert_perm.
Qed.

Lemma aggregate_total t m :
  sum_list_with (fun entry => length (snd entry)) (aggregate t m)
  = length t + sum_list_with (fun entry => length (snd entry)) m.
Proof.
  revert m. induction t as [|x t IH]; intros m; simpl; [done|].
  rewrite IH, aggregate_step_total. lia.
Qed.

Lemma devices_total m (devices : list model) :
  Forall2 (fun e d => model_of_entry e = Ok d) m devices ->
  sum_list_with (fun d => length (model_architectures d)) devices
  = sum_list_with (fun entry => length (snd entry)) m.
Proof.
  induction 1 as [|e d m devices (_ & _ & Ha%to_utf8_all_Ok)%model_of_entry_Ok _ IH];
    simpl; [done|].
  apply Forall2_length in Ha. lia.
Qed.

Lemma first_discovered_length seen t :
  length (first_discovered seen t) <= length t.
Proof.
  revert seen. induction t as [|x t IH]; intros seen; simpl; [done|].
  destruct (existsb _ seen); simpl.
  - specialize (IH seen). lia.
  - specialize (IH (key_of_device (snd x) :: seen)). lia.
Qed.

Lemma entry_counts inf inf_manufacturer entry :
  entry_of inf inf_manufacturer entry ->
  exists t,
    traversal inf (extract_sections inf) inf_manufacturer = Ok t
    /\ sum_list_with (fun d => length (model_architectures d))
         (manufacturer_devices entry) = length t
    /\ length (manufacturer_devices entry) <= length t.
Proof.
  intros (t & Ht & (_ & Hall)%report_entry_Ok). exists t. split; [done|]. split.
  - rewrite (devices_total _ _ Hall), aggregate_total. simpl. lia.
  - rewrite <- (Forall2_length _ _ _ Hall), <- (length_map fst),
      aggregate_keys_first_discovered.
    apply first_discovered_length.
Qed.

Lemma aggregate_distinct t i j e1 e2 :
  aggregate t [] !! i = Some e1 -> aggregate t [] !! j = Some e2 ->
  model_key_eqb (fst e1) (fst e2) = true -> i = j.
Proof.
  intros H1 H2 Heq%model_key_eqb_normal_form.
  apply (NoDup_lookup _ i j (key_normal_form (fst e1)) (aggregate_NoDup t)).
  - by rewrite !list_lookup_fmap, H1.
  - by rewrite !list_lookup_fmap, H2, Heq.
Qed.

End Conservation.

(** The map of a manufacturer never holds two entries with equal keys:
    entries at different positions have different ModelKeys, whatever
    the traversal and the layout of the map. *)
Theorem aggregated_keys_distinct `{api : setup_api} `{layout : unordered_layout}
    (t : list (wstring * device_description_line)) (i j : nat)
    (e1 e2 : model_key * list wstring) :
  i <> j ->
  aggregate t [] !! i = Some e1 -> aggregate t [] !! j = Some e2 ->
  model_key_eqb (fst e1) (fst e2) = false.
Proof.
  intros Hne H1 H2. apply not_true_is_false. intros Heq. apply Hne.
  by apply (aggregate_distinct t i j e1 e2).
Qed.

Lemma aggregated_keys_distinct_witness :
  @model_key_eqb ascii_api
    {| description := W "D2"; hardware_ids := [] |}
    {| description := W "D1"; hardware_ids := [W "HW1"] |} = false.
Proof.
  apply (@aggregated_keys_distinct ascii_api fnv_table
           [ (W "", d1_first); (W "ntamd64", d1_later);
             (W "ntamd64",
              {| device_description := W "D2"; install_section := W "Sz";
                 device_hardware_ids := [] |}) ]
           0 1
           ({| description := W "D2"; hardware_ids := [] |}, [W "ntamd64"])
           ({| description := W "D1"; hardware_ids := [W "HW1"] |},
            [W ""; W "ntamd64"])).
  - discriminate.
  - reflexivity.
  - reflexivity.
Defined.

(** In a report that is returned, no declaration is lost and none is
    counted twice: for every manufacturer, the architectures of its
    models, taken together, are as many as the declarations of its
    traversal, and there are at most as many models as declarations. *)
Theorem report_counts_declarations `{api : setup_api} `{layout : unordered_layout}
    (inf : inf_file) (r : report) :
  select_report_data inf = Ok r ->
  exists manufacturers,
    extract_manufacturers inf = Ok manufacturers
    /\ Forall2
         (fun inf_manufacturer entry =>
            exists t,
              traversal inf (extract_sections inf) inf_manufacturer = Ok t
              /\ sum_list_with (fun d => length (model_architectures d))
                   (manufacturer_devices entry) = length t
              /\ length (manufacturer_devices entry) <= length t)
         manufacturers r.
Proof.
  intros (ms & Hms & Hall)%select_report_data_entries.
  exists ms. split; [done|].
  eapply Forall2_impl; [exact Hall|]. apply entry_counts.
Qed.

Lemma report_counts_declarations_witness :
  exists manufacturers,
    extract_manufacturers acme = Ok manufacturers
    /\ Forall2
         (fun inf_manufacturer entry =>
            exists t,
              @traversal ascii_api acme (@extract_sections ascii_api acme)
                inf_manufacturer = Ok t
              /\ sum_list_with (fun d => length (model_architectures d))
                   (manufacturer_devices entry) = length t
              /\ length (manufacturer_devices entry) <= length t)
         manufacturers
         [ {| manufacturer_name := "Acme";
              manufacturer_devices :=
                [ {| model_description := "D2";
                     model_hardware_ids := [];
                     model_architectures := ["ntamd64"%string] |};
                  {| model_description := "D1";
                     model_hardware_ids := ["HW1"%string];
                     model_architectures := [""%string; "ntamd64"%string] |} ] |};
           {| manufacturer_name := "Ghost"; manufacturer_devices := [] |} ].
Proof.
  apply (@report_counts_declarations ascii_api fnv_table acme).
  vm_compute. reflexivity.
Defined.

(** ** Which spelling the Section Catalog stores *)

Section Spelling.
Context {api : setup_api}.

Lemma set_find_app name set1 set2 :
  set_find name (set1 ++ set2)
  = match set_find name set1 with
    | Some stored => Some stored
    | None => set_find name set2
    end.
Proof.
  unfold set_find. induction set1 as [|s set1 IH]; simpl; [done|].
  by destruct (ci_eqb s name).
Qed.

Lemma set_find_emplace_all name names acc :
  set_find name
    (fold_left (fun result raw_name => set_emplace raw_name result) names acc)
  = match set_find name acc with
    | Some stored => Some stored
    | None => List.find (fun raw => ci_eqb raw name) names
    end.
Proof.
  revert acc. induction names as [|raw names IH]; intros acc; simpl.
  - by destruct (set_find name acc).
  - rewrite IH. unfold set_emplace.
    destruct (set_find raw acc) as [stored|] eqn:Hraw.
    + destruct (set_find name acc) as [stored'|] eqn:Hname; [done|].
      destruct (ci_eqb raw name) eqn:Heq; [|done].
      apply ci_eqb_equal in Heq.
      rewrite (set_find_congr _ _ acc Heq) in Hraw. congruence.
    + rewrite set_find_app.
      destruct (set_find name acc) as [stored'|]; [done|].
      unfold set_find at 1. simpl. by destruct (ci_eqb raw name).
Qed.

End Spelling.

(** Looking a name up in the set of [extract_sections] gives the first
    name, in the reader's enumeration order, that is equal to it as a
    section name: the set keeps the spelling enumerated first, and that
    is the spelling the Correlator yields. *)
Theorem extract_sections_first_spelling `{api : setup_api} (inf : inf_file)
    (name : section_name) :
  set_find name (extract_sections inf)
  = List.find (fun raw => ci_eqb raw name) (section_names inf).
Proof. unfold extract_sections. by rewrite set_find_emplace_all. Qed.
